(** * 2D-Fluid-Solver: the solver pipeline of [solver/FluidSolver.cpp]

    A shallow embedding of [FluidSolver] (reset, advanceFrame,
    advanceTimeStep, advectVelocity, applyGlobalVelocity, pressureSolve,
    boundaryCollide, moveParticles) over IEEE-754 binary32 values, together
    with the properties of the pipeline stated in the specification.

    [Grid.h], [Grid.cpp], [Vector2.h], [Cell.cpp] and [FluidSolver.h] are not
    among the sources.  The grid's constructor, the three grid queries the
    solver calls ([getVelocity], [getMaxVelocity], [getVelocityDivergence])
    and the [sin]-seeded initial velocity of [reset] are parameters of the
    embedding (classes [GridImpl] and [SeedField]); runs on concrete states
    instantiate them with the definitions of module [SpecGrid], which follow
    the specification's description of the grid. *)

From Stdlib Require Import ZArith NArith Lia Bool.
From Stdlib Require Import Floats.SpecFloat.
From stdpp Require Import base tactics option list numbers.

Set Default Proof Using "Type".

(** ** Single-precision arithmetic

    C++ [float] is IEEE-754 binary32: 24 bits of precision, infinities at
    exponent 128, round to nearest even.  [spec_float] carries one NaN, two
    zeros and two infinities, as the hardware does (minus NaN payloads). *)

Module F32.

Definition prec : Z := 24.
Definition emax : Z := 128.

Abbreviation float := spec_float.

Definition zero : float := S754_zero false.
Definition infinity : float := S754_infinity false.
Definition nan : float := S754_nan.

(** Conversion of an integer (an [unsigned] counter or an integer literal). *)
Definition of_Z (z : Z) : float := binary_normalize prec emax z 0 false.
Definition of_N (n : N) : float := of_Z (Z.of_N n).

Definition one : float := of_Z 1.
Definition half : float := S754_finite false 8388608 (-24).

Definition add : float -> float -> float := SFadd prec emax.
Definition sub : float -> float -> float := SFsub prec emax.
Definition mul : float -> float -> float := SFmul prec emax.
Definition div : float -> float -> float := SFdiv prec emax.
Definition sqrt : float -> float := SFsqrt prec emax.
Definition opp : float -> float := SFopp.
Definition abs : float -> float := SFabs.

(** Comparisons; every comparison with a NaN is [false]. *)
Definition ltb : float -> float -> bool := SFltb.
Definition leb : float -> float -> bool := SFleb.
Definition gtb (a b : float) : bool := SFltb b a.

Definition is_zero (x : float) : bool :=
  match x with S754_zero _ => true | _ => false end.

(** A [double] literal stored into a [float]: the binary64 value is
    rounded once more, to binary32. *)
Definition double_div (a b : Z) : float :=
  SFdiv 53 1024 (binary_normalize 53 1024 a 0 false)
                (binary_normalize 53 1024 b 0 false).
Definition of_double (d : float) : float :=
  match d with
  | S754_finite s m e => binary_normalize prec emax (cond_Zopp s (Zpos m)) e s
  | _ => d
  end.

(** [floor] followed by the conversion to [unsigned] that indexing
    performs.  The conversion of a negative, infinite or NaN value, or of
    one that does not fit 32 bits, is undefined in C++: [None]. *)
Definition floorZ (x : float) : option Z :=
  match x with
  | S754_zero _ => Some 0%Z
  | S754_finite s m e => Some (Z.shiftl (cond_Zopp s (Zpos m)) e)
  | _ => None
  end.

Definition to_unsigned (x : float) : option N :=
  z ← floorZ x;
  if decide (0 <= z < 2 ^ 32)%Z then Some (Z.to_N z) else None.

End F32.

Abbreviation float := spec_float.

(** ** Vector2 *)

(** Modelled from the spec: [Vector2.h] is not among the sources; the
    specification takes the 2-D vector type (addition, scaling, magnitude) as
    a correct utility.  Components are single-precision and the operations
    are component-wise. *)
Record Vector2 := mkVector2 { vec_x : float; vec_y : float }.

Definition Vector2_add (a b : Vector2) : Vector2 :=
  mkVector2 (F32.add (vec_x a) (vec_x b)) (F32.add (vec_y a) (vec_y b)).

Definition Vector2_scale (a : Vector2) (k : float) : Vector2 :=
  mkVector2 (F32.mul (vec_x a) k) (F32.mul (vec_y a) k).

Definition magnitude (a : Vector2) : float :=
  F32.sqrt (F32.add (F32.mul (vec_x a) (vec_x a)) (F32.mul (vec_y a) (vec_y a))).

Definition zeroX (a : Vector2) : Vector2 := mkVector2 F32.zero (vec_y a).
Definition zeroY (a : Vector2) : Vector2 := mkVector2 (vec_x a) F32.zero.
Definition setX (v : float) (a : Vector2) : Vector2 := mkVector2 v (vec_y a).
Definition setY (v : float) (a : Vector2) : Vector2 := mkVector2 (vec_x a) v.

(** ** Cell  ([Cell.h])

    [FluidSolver.cpp] reads and writes [pressure], [vel], [stagedVel],
    [cellType] and [neighbors], and names the types [Cell::FLUID] and
    [Cell::SOLID]; the header among the sources still declares the flag
    [isLiquid] in place of [cellType].  The record follows the solver; the
    third type, [EMPTY], is the specification's.  The neighbour pointers are
    not stored in the record: the grid answers them by index arithmetic (see
    [neighbor]). *)

Inductive CellType := FLUID | EMPTY | SOLID.
Inductive Dimension := X | Y.
Inductive Neighbor := POS_X | POS_Y | POS_XY.

#[global] Instance CellType_eq_dec : EqDecision CellType.
Proof. solve_decision. Defined.

Record Cell := mkCell {
  pressure : float;
  vel_X : float;
  vel_Y : float;
  stagedVel_X : float;
  stagedVel_Y : float;
  cellType : CellType
}.

Definition vel (c : Cell) (d : Dimension) : float :=
  match d with X => vel_X c | Y => vel_Y c end.

Definition stagedVel (c : Cell) (d : Dimension) : float :=
  match d with X => stagedVel_X c | Y => stagedVel_Y c end.

Definition set_vel (d : Dimension) (v : float) (c : Cell) : Cell :=
  match d with
  | X => mkCell (pressure c) v (vel_Y c) (stagedVel_X c) (stagedVel_Y c) (cellType c)
  | Y => mkCell (pressure c) (vel_X c) v (stagedVel_X c) (stagedVel_Y c) (cellType c)
  end.

Definition set_stagedVel (d : Dimension) (v : float) (c : Cell) : Cell :=
  match d with
  | X => mkCell (pressure c) (vel_X c) (vel_Y c) v (stagedVel_Y c) (cellType c)
  | Y => mkCell (pressure c) (vel_X c) (vel_Y c) (stagedVel_X c) v (cellType c)
  end.

Definition set_cellType (t : CellType) (c : Cell) : Cell :=
  mkCell (pressure c) (vel_X c) (vel_Y c) (stagedVel_X c) (stagedVel_Y c) t.

Definition set_pressure (p : float) (c : Cell) : Cell :=
  mkCell p (vel_X c) (vel_Y c) (stagedVel_X c) (stagedVel_Y c) (cellType c).

(** [vel[d] += v] and [vel[d] -= v]. *)
Definition add_vel (d : Dimension) (v : float) (c : Cell) : Cell :=
  set_vel d (F32.add (vel c d) v) c.
Definition sub_vel (d : Dimension) (v : float) (c : Cell) : Cell :=
  set_vel d (F32.sub (vel c d) v) c.

(** [Cell::commitStagedVel], as documented in [Cell.h]: the staged velocity
    becomes the current one, and the staged value is not modified. *)
Definition commitStagedVel (c : Cell) : Cell :=
  mkCell (pressure c) (stagedVel_X c) (stagedVel_Y c)
         (stagedVel_X c) (stagedVel_Y c) (cellType c).

(** Modelled from the spec: [Cell::Cell()] lives in [Cell.cpp], which is not
    among the sources.  A default-constructed cell has zero pressure, zero
    velocities and is not liquid. *)
Definition Cell_default : Cell :=
  mkCell F32.zero F32.zero F32.zero F32.zero F32.zero EMPTY.

(** ** Grid *)

(** Modelled from the spec: [Grid.h] is not among the sources.  A grid owns
    a flat array of [rows * cols] cells, sized from a width and a height in
    cell units; [pressureSolve] itself numbers the cells [y * cols + x], and
    that is the layout taken here. *)
Record Grid := mkGrid {
  getWidth : float;
  getHeight : float;
  getColCount : N;
  getRowCount : N;
  cells : list Cell
}.

Definition set_cells (g : Grid) (l : list Cell) : Grid :=
  mkGrid (getWidth g) (getHeight g) (getColCount g) (getRowCount g) l.

(** [unsigned] is 32 bits wide. *)
Definition u32 (z : Z) : N := Z.to_N (z mod 2 ^ 32).

(** Modelled from the spec: [Grid::operator()(x, y)] and
    [Grid::operator[](i)] are not among the sources.  Both address the same
    flat array; access outside the grid is undefined behaviour in C++ and is
    [None] here. *)
Definition index (g : Grid) (x y : N) : option nat :=
  if decide (x < getColCount g ∧ y < getRowCount g)%N
  then Some (N.to_nat (y * getColCount g + x))
  else None.

(** [_grid(x, y)] read, and [_grid(x, y).field op= ...] *)
Definition cellAt (g : Grid) (x y : N) : option Cell :=
  i ← index g x y; cells g !! i.

Definition modifyIndex (f : Cell → Cell) (i : nat) (g : Grid) : option Grid :=
  c ← cells g !! i; Some (set_cells g (<[i := f c]> (cells g))).

Definition modifyAt (f : Cell → Cell) (x y : N) (g : Grid) : option Grid :=
  i ← index g x y; modifyIndex f i g.

(** Modelled from the spec: the links are built by [Grid], whose code is
    not among the sources.  [cell.neighbors[n]] of the cell at [(x, y)] is
    the cell at +X, +Y or +X+Y, absent (a null pointer) at the grid's
    edges; it is given here by its coordinates. *)
Definition neighbor (g : Grid) (n : Neighbor) (x y : N) : option (N * N) :=
  match n with
  | POS_X => if decide (x + 1 < getColCount g)%N then Some (x + 1, y)%N else None
  | POS_Y => if decide (y + 1 < getRowCount g)%N then Some (x, y + 1)%N else None
  | POS_XY => if decide (x + 1 < getColCount g ∧ y + 1 < getRowCount g)%N
              then Some (x + 1, y + 1)%N else None
  end.

(** The array holds one cell per coordinate pair, and the counts fit the
    [unsigned] type they are stored in. *)
Record wf_grid (g : Grid) : Prop := {
  wf_length : length (cells g) = N.to_nat (getRowCount g * getColCount g);
  wf_cols : (getColCount g < 2 ^ 32)%N;
  wf_rows : (getRowCount g < 2 ^ 32)%N;
  wf_count : (getRowCount g * getColCount g < 2 ^ 32)%N
}.

(** ** Loops *)

(** [for (unsigned i = 0; i < n; ++i)] visits [0, 1, ..., n-1]. *)
Definition upto (n : N) : list N := N.of_nat <$> seq 0 (N.to_nat n).

(** A loop body run over a list of counter values, threading the state;
    the loop stops with [None] as soon as a body does. *)
Fixpoint for_each {A S : Type} (body : A → S → option S) (l : list A) (s : S)
  : option S :=
  match l with
  | [] => Some s
  | a :: l' => s' ← body a s; for_each body l' s'
  end.

(** [for (float x = x0; x < bound; x += 1.0f)]: the counter is a float, so
    the loop is run with fuel; [None] when the fuel runs out. *)
Fixpoint float_for {S : Type} (fuel : nat) (x bound : float)
    (body : float → S → option S) (s : S) : option S :=
  match fuel with
  | O => None
  | Datatypes.S fuel' =>
      if F32.ltb x bound
      then s' ← body x s; float_for fuel' (F32.add x F32.one) bound body s'
      else Some s
  end.

(** ** FluidSolver state *)

Record FluidSolver := mkFluidSolver {
  _width : float;
  _height : float;
  _grid : Grid;
  _frameReady : bool;
  _particles : list Vector2
}.

Definition set_grid (g : Grid) (s : FluidSolver) : FluidSolver :=
  mkFluidSolver (_width s) (_height s) g (_frameReady s) (_particles s).
Definition set_frameReady (b : bool) (s : FluidSolver) : FluidSolver :=
  mkFluidSolver (_width s) (_height s) (_grid s) b (_particles s).
Definition set_particles (ps : list Vector2) (s : FluidSolver) : FluidSolver :=
  mkFluidSolver (_width s) (_height s) (_grid s) (_frameReady s) ps.

(** ** What the solver calls but does not define *)

(** [Grid::Grid(width, height)] ([None] if the constructor does not return a
    grid) and the three queries [Grid::getVelocity(point)],
    [Grid::getMaxVelocity()] and [Grid::getVelocityDivergence(x, y)], all
    implemented in [Grid.cpp]; the queries read the grid and do not change
    it. *)
Class GridImpl := {
  Grid_new : float → float → option Grid;
  getVelocity : Grid → Vector2 → Vector2;
  getMaxVelocity : Grid → Vector2;
  getVelocityDivergence : Grid → N → N → float
}.

(** The test velocity field of [reset]: [sin(x * 45.215 + y * 88.15468) / 2]
    for [X] and [sin(x * 2.548 + y * 121.1215) / 2] for [Y], computed by the
    C library in double precision. *)
Class SeedField := seedVelocity : Dimension → float → float → float.

(** ** The solver's stages *)

Section Solver.

Context {grid_impl : GridImpl} {seed_field : SeedField}.

(** *** reset *)

(** [0.20f], and [x + 0.20f * (i + 1)] for an [unsigned i]. *)
Definition tracerSpacing : float := F32.div (F32.of_Z 1) (F32.of_Z 5).

Definition tracerOffset (x : float) (i : N) : float :=
  F32.add x (F32.mul tracerSpacing (F32.of_N (i + 1))).

(** The sixteen [push_back]s of one cell, [i] outer and [j] inner. *)
Definition tracers (x y : float) : list Vector2 :=
  i ← upto 4; j ← upto 4; [mkVector2 (tracerOffset x i) (tracerOffset y j)].

(** The body of the two loops of [reset], on the local [grid] and on
    [_particles]. *)
Definition reset_cell (x y : float) (st : Grid * list Vector2)
  : option (Grid * list Vector2) :=
  xi ← F32.to_unsigned x;
  yi ← F32.to_unsigned y;
  g ← modifyAt (set_cellType FLUID) xi yi st.1;
  g ← modifyAt (set_pressure F32.one) xi yi g;
  g ← modifyAt (set_vel X (seedVelocity X x y)) xi yi g;
  g ← modifyAt (set_vel Y (seedVelocity Y x y)) xi yi g;
  Some (g, st.2 ++ tracers x y).

(** [_particles.clear()], the local [grid], the two loops ([y] outer, [x]
    inner), then [_grid = grid] and [_frameReady = false]. *)
Definition reset (fuel : nat) (s : FluidSolver) : option FluidSolver :=
  grid ← Grid_new (_width s) (_height s);
  st ← float_for fuel F32.zero (_height s)
         (λ y, float_for fuel F32.zero (_width s) (λ x, reset_cell x y))
         (grid, []);
  Some (mkFluidSolver (_width s) (_height s) st.1 false st.2).

(** The constructor: member initialisers, then [reset()].  (Subscribing to
    the reset signal does not touch the solver's state.) *)
Definition FluidSolver_new (fuel : nat) (width height : float)
  : option FluidSolver :=
  g ← Grid_new width height;
  reset fuel (mkFluidSolver width height g false []).

(** *** advectVelocity *)

(** The four [if]s that follow the backtrace, in source order.  The second
    one compares [position.y] with the grid's width and assigns
    [position.x]. *)
Definition clampPosition (g : Grid) (position : Vector2) : Vector2 :=
  let position :=
    if F32.ltb (vec_x position) F32.zero then zeroX position else position in
  let position :=
    if F32.gtb (vec_y position) (getWidth g)
    then setX (getWidth g) position else position in
  let position :=
    if F32.ltb (vec_y position) F32.zero then zeroY position else position in
  let position :=
    if F32.gtb (vec_y position) (getHeight g)
    then setY (getHeight g) position else position in
  position.

(** [position += _grid.getVelocity(position) * -timeStepSec] *)
Definition backtrace (timeStepSec : float) (g : Grid) (position : Vector2)
  : Vector2 :=
  Vector2_add position
    (Vector2_scale (getVelocity g position) (F32.opp timeStepSec)).

(** The point at which the field is sampled for the face sample at
    [(x, y)]. *)
Definition advectSource (timeStepSec : float) (g : Grid) (x y : float)
  : Vector2 :=
  clampPosition g (backtrace timeStepSec g (mkVector2 x y)).

Definition component (d : Dimension) (v : Vector2) : float :=
  match d with X => vec_x v | Y => vec_y v end.

(** One iteration of either loop nest: the cell is [_grid(floor(x),
    floor(y))] and its staged component [d] receives the sampled value. *)
Definition advectFace (d : Dimension) (timeStepSec : float) (x y : float)
    (g : Grid) : option Grid :=
  xi ← F32.to_unsigned x;
  yi ← F32.to_unsigned y;
  modifyAt
    (set_stagedVel d (component d (getVelocity g (advectSource timeStepSec g x y))))
    xi yi g.

(** [getRowCount() * getColCount()] in [unsigned] arithmetic. *)
Definition cellCount (g : Grid) : N :=
  u32 (Z.of_N (getRowCount g) * Z.of_N (getColCount g)).

(** The two loop nests, then the commit of every cell.  The loops re-read
    [getWidth()] and [getHeight()] at each test; no iteration changes them,
    so the bounds are taken once. *)
Definition advectVelocity (fuel : nat) (timeStepSec : float) (g : Grid)
  : option Grid :=
  g ← float_for fuel F32.zero (getWidth g)
        (λ x, float_for fuel F32.half (getHeight g)
                (λ y, advectFace X timeStepSec x y)) g;
  g ← float_for fuel F32.zero (getHeight g)
        (λ y, float_for fuel F32.half (getWidth g)
                (λ x, advectFace Y timeStepSec x y)) g;
  for_each (λ i, modifyIndex commitStagedVel (N.to_nat i)) (upto (cellCount g)) g.

(** *** applyGlobalVelocity *)

(** [_grid[i].vel[X] += velocity.x; _grid[i].vel[Y] += velocity.y] for
    every [i] below the cell count. *)
Definition applyGlobalVelocity (velocity : Vector2) (g : Grid) : option Grid :=
  for_each
    (λ i g,
       g ← modifyIndex (add_vel X (vec_x velocity)) (N.to_nat i) g;
       modifyIndex (add_vel Y (vec_y velocity)) (N.to_nat i) g)
    (upto (cellCount g)) g.

(** *** pressureSolve *)

(** [if (cell.neighbors[n]) cell.neighbors[n]->vel[d] += pressureVel] *)
Definition pushToNeighbor (n : Neighbor) (d : Dimension) (pressureVel : float)
    (x y : N) (g : Grid) : option Grid :=
  match neighbor g n x y with
  | Some (x', y') => modifyAt (add_vel d pressureVel) x' y' g
  | None => Some g
  end.

(** The body of the first loop nest. *)
Definition pressureSolve_cell (timeStepSec : float) (x y : N) (g : Grid)
  : option Grid :=
  cell ← cellAt g x y;
  let pressureVel := F32.mul timeStepSec (pressure cell) in
  if decide (cellType cell = FLUID) then
    g ← modifyAt (sub_vel X pressureVel) x y g;
    g ← modifyAt (sub_vel Y pressureVel) x y g;
    g ← pushToNeighbor POS_X X pressureVel x y g;
    pushToNeighbor POS_Y Y pressureVel x y g
  else Some g.

(** The second loop nest fills the local [divergence] vector, of
    [cols * rows] entries, at [index = y * cols + x]; [x] is the outer
    counter and [y] the inner one.  Writing outside the vector is undefined. *)
Definition pressureSolve_divergence (g : Grid) : option (list float) :=
  for_each
    (λ xy divergence,
       let index := N.to_nat (u32 (Z.of_N xy.2 * Z.of_N (getColCount g) + Z.of_N xy.1)) in
       _ ← divergence !! index;
       Some (<[index := F32.opp (getVelocityDivergence g xy.1 xy.2)]> divergence))
    (x ← upto (getColCount g); y ← upto (getRowCount g); [(x, y)])
    (replicate (N.to_nat (cellCount g)) F32.zero).

(** [pressureSolve] returns after filling [divergence]: the vector is a
    local and is dropped; no pressure is computed from it. *)
Definition pressureSolve (timeStepSec : float) (g : Grid) : option Grid :=
  g ← for_each
        (λ x, for_each (λ y, pressureSolve_cell timeStepSec x y)
                (upto (getRowCount g)))
        (upto (getColCount g)) g;
  divergence ← pressureSolve_divergence g;
  Some g.

(** *** boundaryCollide *)

(** The loop over the columns (bottom and top row), then the loop over the
    rows (left and right column); [rows-1] and [cols-1] are [unsigned]. *)
Definition boundaryCollide (g : Grid) : option Grid :=
  let rows := getRowCount g in
  let cols := getColCount g in
  let top := u32 (Z.of_N rows - 1) in
  let right := u32 (Z.of_N cols - 1) in
  g ← for_each
        (λ col g,
           g ← modifyAt (set_vel Y F32.zero) col 0%N g;
           g ← modifyAt (set_vel X F32.zero) col top g;
           g ← modifyAt (set_vel Y F32.zero) col top g;
           modifyAt (set_cellType SOLID) col top g)
        (upto cols) g;
  for_each
    (λ row g,
       g ← modifyAt (set_vel X F32.zero) 0%N row g;
       g ← modifyAt (set_vel X F32.zero) right row g;
       g ← modifyAt (set_vel Y F32.zero) right row g;
       modifyAt (set_cellType SOLID) right row g)
    (upto rows) g.

(** *** moveParticles *)

(** [p += _grid.getVelocity(p) * timeStepSec] for every particle [p]. *)
Definition moveParticles (timeStepSec : float) (s : FluidSolver) : FluidSolver :=
  set_particles
    ((λ p, Vector2_add p (Vector2_scale (getVelocity (_grid s) p) timeStepSec))
       <$> _particles s)
    s.

(** *** advanceTimeStep *)

(** [Vector2 gravity(0.0f, -0.098)]: the second literal is a [double]. *)
Definition gravity : Vector2 :=
  mkVector2 F32.zero (F32.of_double (F32.opp (F32.double_div 98 1000))).

(** The five stages, in source order. *)
Definition advanceTimeStep (fuel : nat) (timeStepSec : float) (s : FluidSolver)
  : option FluidSolver :=
  g ← advectVelocity fuel timeStepSec (_grid s);
  g ← applyGlobalVelocity (Vector2_scale gravity timeStepSec) g;
  g ← pressureSolve timeStepSec g;
  g ← boundaryCollide g;
  Some (moveParticles timeStepSec (set_grid g s)).

(** *** advanceFrame *)

Definition frameTime : float := F32.div (F32.of_Z 1) (F32.of_Z 30).
Definition CFLCoefficient : float := F32.of_Z 2.

(** One record per sub-step run by [advanceFrame]: the divisor of line 84
    ([getMaxVelocity().magnitude()]), the quotient computed there, and the
    step passed to [advanceTimeStep]. *)
Record SubStep := mkSubStep {
  maxVelocityMagnitude : float;
  cflTimeStep : float;
  simTimeStepSec : float
}.

(** The [while (!_frameReady)] loop, with the local [frameTimeSec].  [fuel]
    bounds the number of iterations and [gas] is the fuel of the float loops
    of each sub-step.  Next to the solver the loop returns the trace of its
    sub-steps, which is not part of the program's state. *)
Fixpoint advanceFrame_loop (fuel gas : nat) (frameTimeSec : float)
    (s : FluidSolver) (trace : list SubStep)
  : option (FluidSolver * list SubStep) :=
  match fuel with
  | O => None
  | Datatypes.S fuel' =>
      if _frameReady s then Some (s, trace)
      else if F32.leb frameTimeSec F32.zero
      then Some (set_frameReady true s, trace)
      else
        let mag := magnitude (getMaxVelocity (_grid s)) in
        let cfl := F32.div CFLCoefficient mag in
        let dt := if F32.gtb cfl frameTimeSec then frameTimeSec else cfl in
        s' ← advanceTimeStep gas dt s;
        advanceFrame_loop fuel' gas (F32.sub frameTimeSec dt) s'
          (trace ++ [mkSubStep mag cfl dt])
  end.

(** [advanceFrame()]: the loop entered with [frameTimeSec = 1.0f/30.0f]. *)
Definition advanceFrame_trace (fuel gas : nat) (s : FluidSolver)
  : option (FluidSolver * list SubStep) :=
  advanceFrame_loop fuel gas frameTime s [].

Definition advanceFrame (fuel gas : nat) (s : FluidSolver) : option FluidSolver :=
  fst <$> advanceFrame_trace fuel gas s.

(** *** draw, getSimulationWidth, getSimulationHeight *)

(** Modelled from the spec: [IFluidRenderer.h] is not among the sources.
    [drawGrid] is handed the grid and the particles and does not change
    them; the renderer is the list of what it was handed, oldest first. *)
Record DrawCall := mkDrawCall {
  drawnGrid : Grid;
  drawnParticles : list Vector2
}.

(** [if (_frameReady) { renderer->drawGrid(_grid, _particles);
    _frameReady = false; }], and nothing otherwise. *)
Definition draw (s : FluidSolver) (renderer : list DrawCall)
  : FluidSolver * list DrawCall :=
  if _frameReady s
  then (set_frameReady false s,
        renderer ++ [mkDrawCall (_grid s) (_particles s)])
  else (s, renderer).

Definition getSimulationWidth (s : FluidSolver) : float := _width s.
Definition getSimulationHeight (s : FluidSolver) : float := _height s.

(** *** Sequences of calls *)

(** The three public operations that change the solver, and a client that
    calls them in any order on one solver and one renderer. *)
Inductive Call := CallReset | CallAdvanceFrame | CallDraw.

#[global] Instance Call_eq_dec : EqDecision Call.
Proof. solve_decision. Defined.

Definition call (fuel gas : nat) (c : Call) (st : FluidSolver * list DrawCall)
  : option (FluidSolver * list DrawCall) :=
  match c with
  | CallReset => s ← reset fuel st.1; Some (s, st.2)
  | CallAdvanceFrame => s ← advanceFrame fuel gas st.1; Some (s, st.2)
  | CallDraw => Some (draw st.1 st.2)
  end.

Definition calls (fuel gas : nat) (l : list Call)
    (st : FluidSolver * list DrawCall) : option (FluidSolver * list DrawCall) :=
  for_each (call fuel gas) l st.

End Solver.

(** ** The grid of the specification

    Runs on concrete states need the grid code that [Grid.cpp] implements. *)

Module SpecGrid.

(** Modelled from the spec: [Grid::Grid(width, height)] is not among the
    sources.  The grid is sized [rows * cols] from the width and height in
    cell units and filled with default cells; a zero-size grid is a grid. *)
Definition Grid_new (width height : float) : option Grid :=
  cols ← F32.to_unsigned width;
  rows ← F32.to_unsigned height;
  Some (mkGrid width height cols rows
          (replicate (N.to_nat (rows * cols)) Cell_default)).

(** The velocity stored for the face [d] of the cell at [(x, y)]; a face
    beyond the last column or row has no cell to store it and counts as
    [0]. *)
Definition faceVel (g : Grid) (d : Dimension) (x y : N) : float :=
  match cellAt g x y with Some c => vel c d | None => F32.zero end.

(** Modelled from the spec: [Grid::getVelocityDivergence] is not among the
    sources.  [divergenceAt(x, y)] is [(vel_X(x+1,y) - vel_X(x,y)) +
    (vel_Y(x,y+1) - vel_Y(x,y))]. *)
Definition getVelocityDivergence (g : Grid) (x y : N) : float :=
  F32.add (F32.sub (faceVel g X (x + 1) y) (faceVel g X x y))
          (F32.sub (faceVel g Y x (y + 1)) (faceVel g Y x y)).

Definition cellVelocity (c : Cell) : Vector2 := mkVector2 (vel_X c) (vel_Y c).

(** Modelled from the spec: [Grid::getMaxVelocity] is not among the
    sources.  It scans all cells for the largest [sqrt(vel_X^2 + vel_Y^2)];
    the solver takes the [magnitude()] of what it returns. *)
Definition getMaxVelocity (g : Grid) : Vector2 :=
  foldl (λ best c,
           if F32.gtb (magnitude (cellVelocity c)) (magnitude best)
           then cellVelocity c else best)
        (mkVector2 F32.zero F32.zero) (cells g).

(** [v] brought into [[lo, hi]]. *)
Definition clampTo (lo hi v : float) : float :=
  if F32.ltb v lo then lo else if F32.gtb v hi then hi else v.

(** A sample index brought into [[0, n-1]]. *)
Definition clampIndex (n : N) (z : Z) : N :=
  if decide (z < 0)%Z then 0%N
  else if decide (Z.of_N n <= z)%Z then N.pred n else Z.to_N z.

(** Linear interpolation, [(1 - t) * a + t * b]. *)
Definition lerp (a b t : float) : float :=
  F32.add (F32.mul (F32.sub F32.one t) a) (F32.mul t b).

(** The component [d] interpolated at [(u, v)], in the coordinates of its
    own samples. *)
Definition sample (g : Grid) (d : Dimension) (u v : float) : float :=
  match F32.floorZ u, F32.floorZ v with
  | Some i, Some j =>
      let tx := F32.sub u (F32.of_Z i) in
      let ty := F32.sub v (F32.of_Z j) in
      let at_ (i j : Z) :=
        faceVel g d (clampIndex (getColCount g) i) (clampIndex (getRowCount g) j) in
      lerp (lerp (at_ i j) (at_ (i + 1)%Z j) tx)
           (lerp (at_ i (j + 1)%Z) (at_ (i + 1)%Z (j + 1)%Z) tx) ty
  | _, _ => F32.nan
  end.

(** Modelled from the spec: [Grid::getVelocity] is not among the sources.
    [velocityAt(point)] clamps the point into [[0, width] x [0, height]] and
    interpolates each component bilinearly between its four surrounding face
    samples ([X] at integer x and half y, [Y] at half x and integer y),
    clamping sample indices at the edges. *)
Definition getVelocity (g : Grid) (point : Vector2) : Vector2 :=
  let px := clampTo F32.zero (getWidth g) (vec_x point) in
  let py := clampTo F32.zero (getHeight g) (vec_y point) in
  mkVector2 (sample g X px (F32.sub py F32.half))
            (sample g Y (F32.sub px F32.half) py).

(** A stand-in for the [sin]-seeded field of [reset], with values in
    [[-1/2, 1/2]] as the source's comment requires. *)
Definition seedVelocity (d : Dimension) (x y : float) : float :=
  match d with
  | X => F32.div (F32.sub x y) (F32.of_Z 8)
  | Y => F32.div (F32.sub y x) (F32.of_Z 8)
  end.

Definition impl : GridImpl :=
  Build_GridImpl Grid_new getVelocity getMaxVelocity getVelocityDivergence.

Definition seed : SeedField := seedVelocity.

End SpecGrid.

(** ** Example states *)

Definition four : float := F32.of_Z 4.

(** A 4 x 4 grid of fluid at rest, with the unit pressure [reset] gives. *)
Definition still_cell : Cell := mkCell F32.one F32.zero F32.zero F32.zero F32.zero FLUID.
Definition still_grid : Grid := mkGrid four four 4 4 (replicate 16 still_cell).
Definition still_solver : FluidSolver := mkFluidSolver four four still_grid false [].

(** A 4 x 4 grid of fluid whose X velocity grows with x: cell [(x, y)] has
    [vel_X = x] and [vel_Y = 0], unit pressure, type [FLUID]. *)
Definition shear_grid : Grid :=
  mkGrid four four 4 4
    (y ← upto 4; x ← upto 4;
     [mkCell F32.one (F32.of_N x) F32.zero F32.zero F32.zero FLUID]).

(** A 4 x 4 grid of fluid blown towards -X at 64 cells per second; the
    step the CFL bound of [advanceFrame] allows is [2 / 64]. *)
Definition gust_cell : Cell :=
  mkCell F32.one (F32.of_Z (-64)) F32.zero F32.zero F32.zero FLUID.
Definition gust_grid : Grid := mkGrid four four 4 4 (replicate 16 gust_cell).
Definition gust_step : float := F32.div (F32.of_Z 2) (F32.of_Z 64).

(** A grid of fluid at rest, 2 cells wide and 4 cells high. *)
Definition two : float := F32.of_Z 2.
Definition tall_grid : Grid := mkGrid two four 2 4 (replicate 8 still_cell).

(** [2.5f], the height of the X-face sample of the row [y = 2]. *)
Definition two_and_half : float := F32.add two F32.half.

(** One row of two cells at rest: a [FLUID] cell and a [SOLID] one after it. *)
Definition solid_cell : Cell := set_cellType SOLID still_cell.
Definition wall_grid : Grid := mkGrid two F32.one 2 1 [still_cell; solid_cell].

(** The sum over the cells at [coords] of the absolute value of the
    divergence the specification defines. *)
Definition sumAbsDivergence (g : Grid) (coords : list (N * N)) : float :=
  foldl (λ acc xy, F32.add acc (F32.abs (SpecGrid.getVelocityDivergence g xy.1 xy.2)))
        F32.zero coords.

Definition all_cells (g : Grid) : list (N * N) :=
  y ← upto (getRowCount g); x ← upto (getColCount g); [(x, y)].

(** The cells that have a cell after them along both axes. *)
Definition inner_cells (g : Grid) : list (N * N) :=
  y ← upto (getRowCount g - 1); x ← upto (getColCount g - 1); [(x, y)].

(** The clamp the specification describes: each coordinate into the range
    of its own axis. *)
Definition clampIndependent (g : Grid) (position : Vector2) : Vector2 :=
  mkVector2 (SpecGrid.clampTo F32.zero (getWidth g) (vec_x position))
            (SpecGrid.clampTo F32.zero (getHeight g) (vec_y position)).

(** The zero-size grid. *)
Definition empty_grid : Grid := mkGrid F32.zero F32.zero 0 0 [].

(** One row of two [SOLID] cells at rest. *)
Definition dry_grid : Grid := mkGrid two F32.one 2 1 [solid_cell; solid_cell].

(** A client that asks for a frame, draws it twice, resets, and asks for
    and draws another frame. *)
Definition session : list Call :=
  [CallAdvanceFrame; CallDraw; CallDraw; CallReset; CallAdvanceFrame; CallDraw].

(** A 4 x 4 grid with its walls in place and at rest, but for one inner
    cell whose horizontal velocity is [2^100]; the staged velocities equal
    the velocities.  The solver on it has one particle. *)
Definition gale_speed : float := S754_finite false 8388608 77.
Definition calm_cell (t : CellType) : Cell :=
  mkCell F32.one F32.zero F32.zero F32.zero F32.zero t.
Definition gale_cell : Cell :=
  mkCell F32.one gale_speed F32.zero gale_speed F32.zero FLUID.
Definition stuck_grid : Grid :=
  mkGrid four four 4 4
    [calm_cell FLUID; calm_cell FLUID; calm_cell FLUID; calm_cell SOLID;
     calm_cell FLUID; gale_cell;       calm_cell FLUID; calm_cell SOLID;
     calm_cell FLUID; calm_cell FLUID; calm_cell FLUID; calm_cell SOLID;
     calm_cell SOLID; calm_cell SOLID; calm_cell SOLID; calm_cell SOLID].
Definition stuck_solver : FluidSolver :=
  mkFluidSolver four four stuck_grid false [mkVector2 F32.one F32.one].

(** A 4 x 4 grid of [FLUID] cells that all move at one cell a second to the
    right, and a solver on it with two particles. *)
Definition breeze_cell : Cell :=
  mkCell F32.one F32.one F32.zero F32.zero F32.zero FLUID.
Definition breeze_grid : Grid := mkGrid four four 4 4 (replicate 16 breeze_cell).
Definition breeze_solver : FluidSolver :=
  mkFluidSolver four four breeze_grid false
    [mkVector2 F32.one F32.one; mkVector2 two F32.half].

(** A point left of and above a 4 x 4 grid. *)
Definition outside_point : Vector2 :=
  mkVector2 (F32.opp F32.one) (F32.add four F32.one).

(** No sub-step of the trace divided by a zero magnitude. *)
Definition division_guarded (trace : list SubStep) : Prop :=
  Forall (λ st, F32.is_zero (maxVelocityMagnitude st) = false) trace.

(** ** Vocabulary of the proofs *)

(** The grid's dimensions and the number of cells stored. *)
Definition shape (g : Grid) : float * float * N * N * nat :=
  (getWidth g, getHeight g, getColCount g, getRowCount g, length (cells g)).

(** [g'] has the shape of [g], and the field [proj] of every cell is the
    same in both. *)
Definition keeps {A : Type} (proj : Cell → A) (g g' : Grid) : Prop :=
  shape g' = shape g ∧ proj <$> cells g' = proj <$> cells g.

(** [proj] does not look at the velocity, at the staged velocity, at the
    committed velocity, at the type. *)
Definition ignores_vel {A : Type} (proj : Cell → A) : Prop :=
  ∀ d v c, proj (set_vel d v c) = proj c.
Definition ignores_stagedVel {A : Type} (proj : Cell → A) : Prop :=
  ∀ d v c, proj (set_stagedVel d v c) = proj c.
Definition ignores_commit {A : Type} (proj : Cell → A) : Prop :=
  ∀ c, proj (commitStagedVel c) = proj c.
Definition ignores_cellType {A : Type} (proj : Cell → A) : Prop :=
  ∀ t c, proj (set_cellType t c) = proj c.

(** [f] at the cell [(x', y')], nothing elsewhere. *)
Definition at_cell (x' y' : N) (f : Cell → Cell) (x y : N) (c : Cell) : Cell :=
  if decide (x = x' ∧ y = y') then f c else c.

(** [g'] is [g] with [fn x y] applied to the cell at every [(x, y)]. *)
Definition acts (fn : N → N → Cell → Cell) (g g' : Grid) : Prop :=
  shape g' = shape g ∧ ∀ x y, cellAt g' x y = fn x y <$> cellAt g x y.

(** The effect of one iteration of the first and of the second loop of
    [boundaryCollide] on the cell at [(x, y)]. *)
Definition boundary_col_effect (top col x y : N) (c : Cell) : Cell :=
  at_cell col top (set_cellType SOLID) x y
    (at_cell col top (set_vel Y F32.zero) x y
       (at_cell col top (set_vel X F32.zero) x y
          (at_cell col 0 (set_vel Y F32.zero) x y c))).

Definition boundary_row_effect (right row x y : N) (c : Cell) : Cell :=
  at_cell right row (set_cellType SOLID) x y
    (at_cell right row (set_vel Y F32.zero) x y
       (at_cell right row (set_vel X F32.zero) x y
          (at_cell 0 row (set_vel X F32.zero) x y c))).

(** The correction [pressureSolve] derives from the cell at [(x', y')] of
    [g]: [timeStepSec * cell.pressure] if the cell is [FLUID], none
    otherwise. *)
Definition pressureVelAt (timeStepSec : float) (g : Grid) (x' y' : N)
  : option float :=
  cell ← cellAt g x' y';
  if decide (cellType cell = FLUID)
  then Some (F32.mul timeStepSec (pressure cell)) else None.

(** The effect of the iteration [(x', y')] of [pressureSolve]'s first loop
    nest on the cell at [(x, y)]. *)
Definition pressure_effect (timeStepSec : float) (g : Grid) (x' y' x y : N)
    (c : Cell) : Cell :=
  match pressureVelAt timeStepSec g x' y' with
  | Some pressureVel =>
      at_cell x' (y' + 1) (add_vel Y pressureVel) x y
        (at_cell (x' + 1) y' (add_vel X pressureVel) x y
           (at_cell x' y' (sub_vel Y pressureVel) x y
              (at_cell x' y' (sub_vel X pressureVel) x y c)))
  | None => c
  end.

(** The correction pushed into component [d] of the cell at [(x, y)] by
    the cell before it along [d], if that cell exists and is [FLUID]. *)
Definition pressureFrom (timeStepSec : float) (g : Grid) (x y : N)
    (d : Dimension) : option float :=
  match d with
  | X => if decide (x = 0%N) then None else pressureVelAt timeStepSec g (x - 1) y
  | Y => if decide (y = 0%N) then None else pressureVelAt timeStepSec g x (y - 1)
  end.

(** The fields [pressureSolve] decides on. *)
Definition static (c : Cell) : float * CellType := (pressure c, cellType c).

(** The effect of a loop whose iteration [a] has the effect [fn a]. *)
Definition loop_effect {A : Type} (fn : A → N → N → Cell → Cell) (l : list A)
    (x y : N) (c : Cell) : Cell :=
  foldl (λ c a, fn a x y c) c l.


(** The time left of a frame of [frameTimeSec] after the sub-steps of
    [trace]: each step subtracted in turn. *)
Definition timeLeft (frameTimeSec : float) (trace : list SubStep) : float :=
  foldl (λ t st, F32.sub t (simTimeStepSec st)) frameTimeSec trace.

(** Every sub-step of [trace] was started with time left of the frame,
    divided the CFL coefficient by the magnitude it recorded and took the
    quotient, or the time then left of the frame if the quotient was
    greater. *)
Fixpoint stepsCapped (frameTimeSec : float) (trace : list SubStep) : Prop :=
  match trace with
  | [] => True
  | st :: trace' =>
      F32.leb frameTimeSec F32.zero = false ∧
      cflTimeStep st = F32.div CFLCoefficient (maxVelocityMagnitude st) ∧
      simTimeStepSec st =
        (if F32.gtb (cflTimeStep st) frameTimeSec
         then frameTimeSec else cflTimeStep st) ∧
      stepsCapped (F32.sub frameTimeSec (simTimeStepSec st)) trace'
  end.

(** The sub-steps of [trace] run again outside the frame loop, from [s]:
    [advanceTimeStep] with each recorded step in turn.  The result is the
    magnitude of [getMaxVelocity()] read from the grid before each step, and
    the solver after the last one. *)
Fixpoint replay {grid_impl : GridImpl} (gas : nat) (s : FluidSolver)
    (trace : list SubStep) : option (list float * FluidSolver) :=
  match trace with
  | [] => Some ([], s)
  | st :: trace' =>
      s1 ← advanceTimeStep gas (simTimeStepSec st) s;
      r ← replay gas s1 trace';
      Some (magnitude (getMaxVelocity (_grid s)) :: r.1, r.2)
  end.

(** Exact binary32 values.  [shl k a] is [a * 2^k], [digits a] the number
    of bits of [a], and [dyadic a b] the binary32 value [a * 2^b] of an [a]
    of at most 24 bits, in normal form: a mantissa of 24 bits. *)
Definition shl (k : nat) (a : positive) : positive := Nat.iter k xO a.

Definition digits (a : positive) : nat := Pos.to_nat (digits2_pos a).

Definition dyadic (a : positive) (b : Z) : float :=
  S754_finite false (shl (24 - digits a) a) (b - Z.of_nat (24 - digits a)).

(** The values of a loop counter that starts at [0.5] and is incremented by
    [1.0f]: [k + 0.5].  (The counter that starts at [0] takes the values
    [F32.of_N k].) *)
Definition halfCounter (k : N) : float := dyadic (N.succ_pos (2 * k)) (-1).

(** A grid as the solver expects it: well formed, with at least one column
    and one row, fewer than [2^23] of each (up to there the counters
    [k + 0.5] are exact), and with the width and the height equal to the
    column and row counts. *)
Definition sized (g : Grid) : Prop :=
  wf_grid g ∧
  (0 < getColCount g < 2 ^ 23)%N ∧ (0 < getRowCount g < 2 ^ 23)%N ∧
  getWidth g = F32.of_N (getColCount g) ∧
  getHeight g = F32.of_N (getRowCount g).

(** The state of the walls after [boundaryCollide]: in every cell of the
    grid, the velocities the edges it lies on require to be zero are [+0],
    and the cells of the top row and of the right column are [SOLID]. *)
Definition wallsEnforced (g : Grid) : Prop :=
  ∀ x y c, cellAt g x y = Some c →
    (y = 0%N → vel_Y c = F32.zero) ∧
    (y = (getRowCount g - 1)%N →
       vel_X c = F32.zero ∧ vel_Y c = F32.zero ∧ cellType c = SOLID) ∧
    (x = 0%N → vel_X c = F32.zero) ∧
    (x = (getColCount g - 1)%N →
       vel_X c = F32.zero ∧ vel_Y c = F32.zero ∧ cellType c = SOLID).

(** The type of the cell at [(x, y)] of [g] once the walls are in place:
    [SOLID] on the top row and in the right column, what it was elsewhere. *)
Definition sealedType (g : Grid) (x y : N) (t : CellType) : CellType :=
  if decide (y = (getRowCount g - 1)%N ∨ x = (getColCount g - 1)%N)
  then SOLID else t.

(** Every cell of [g] is found in [g'] with the pressure it had and with its
    type sealed. *)
Definition settles (g g' : Grid) : Prop :=
  ∀ x y c, cellAt g x y = Some c →
    ∃ c', cellAt g' x y = Some c' ∧ pressure c' = pressure c ∧
      cellType c' = sealedType g x y (cellType c).

(** What [reset] makes of a cell it visits with the counters [x] and [y]:
    the four assignments of the loop body; the staged velocity is not
    assigned. *)
Definition seededCell {seed_field : SeedField} (x y : float) (c : Cell) : Cell :=
  mkCell F32.one (seedVelocity X x y) (seedVelocity Y x y)
    (stagedVel_X c) (stagedVel_Y c) FLUID.

(** [g] is the fresh grid [g0] in which some cells have been seeded, each
    by counters that index it. *)
Definition seeded {seed_field : SeedField} (g0 g : Grid) : Prop :=
  shape g = shape g0 ∧
  ∀ xi yi c', cellAt g xi yi = Some c' →
    ∃ c0, cellAt g0 xi yi = Some c0 ∧
      (c' = c0 ∨
       ∃ x y, F32.to_unsigned x = Some xi ∧ F32.to_unsigned y = Some yi ∧
              c' = seededCell x y c0).

(** The number of [advanceFrame] calls in a sequence of calls, and the
    number of frames (none or one) that wait to be drawn. *)
Definition framesRequested (l : list Call) : nat :=
  length (filter (λ c, c = CallAdvanceFrame) l).

Definition pending (s : FluidSolver) : nat := if _frameReady s then 1 else 0.

(** What [boundaryCollide] makes of the cell at [(x, y)] of a grid of
    [cols] columns and [rows] rows. *)
Definition boundaryCell (rows cols x y : N) (c : Cell) : Cell :=
  mkCell (pressure c)
    (if decide (y = (rows - 1)%N ∨ x = 0%N ∨ x = (cols - 1)%N)
     then F32.zero else vel_X c)
    (if decide (y = 0%N ∨ y = (rows - 1)%N ∨ x = (cols - 1)%N)
     then F32.zero else vel_Y c)
    (stagedVel_X c) (stagedVel_Y c)
    (if decide (y = (rows - 1)%N ∨ x = (cols - 1)%N)
     then SOLID else cellType c).

(** What [pressureSolve] makes of the velocity component [d] of the cell at
    [(x, y)]: the correction of the cell before it along [d] is added
    first, the cell's own correction is subtracted next. *)
Definition pressureSolvedVel (timeStepSec : float) (g : Grid) (x y : N)
    (d : Dimension) (v : float) : float :=
  let pushed :=
    match pressureFrom timeStepSec g x y d with
    | Some pressureVel => F32.add v pressureVel
    | None => v
    end in
  match pressureVelAt timeStepSec g x y with
  | Some pressureVel => F32.sub pushed pressureVel
  | None => pushed
  end.

(** [applyGlobalVelocity] on one cell. *)
Definition pushCell (velocity : Vector2) (c : Cell) : Cell :=
  add_vel Y (vec_y velocity) (add_vel X (vec_x velocity) c).

(** * Properties *)

(** ** Loop invariants *)

Lemma for_each_invariant {A S : Type} (P : S → Prop) (body : A → S → option S)
    (l : list A) :
  (∀ a s s', a ∈ l → P s → body a s = Some s' → P s') →
  ∀ s s', P s → for_each body l s = Some s' → P s'.
Proof.
  induction l as [|a l IH]; intros Hbody s s' HP Hrun; simpl in Hrun.
  - by simplify_eq.
  - apply bind_Some in Hrun as (s1 & H1 & H2).
    eapply IH; [| |exact H2].
    + intros b t t' Hb. apply Hbody. by right.
    + eapply Hbody; [by left|exact HP|exact H1].
Qed.

Lemma float_for_invariant {S : Type} (P : S → Prop) (bound : float)
    (body : float → S → option S) :
  (∀ x s s', P s → body x s = Some s' → P s') →
  ∀ fuel x s s', P s → float_for fuel x bound body s = Some s' → P s'.
Proof.
  intros Hbody fuel. induction fuel as [|fuel IH]; intros x s s' HP Hrun;
    simpl in Hrun; [done|].
  destruct (F32.ltb x bound); [|by simplify_eq].
  apply bind_Some in Hrun as (s1 & H1 & H2).
  eapply IH; [|exact H2]. eauto.
Qed.

(** A loop whose bodies succeed on every state satisfying an invariant they
    keep, succeeds. *)
Lemma for_each_total {A S : Type} (P : S → Prop) (body : A → S → option S)
    (l : list A) :
  (∀ a s, a ∈ l → P s → ∃ s', body a s = Some s' ∧ P s') →
  ∀ s, P s → ∃ s', for_each body l s = Some s' ∧ P s'.
Proof.
  induction l as [|a l IH]; intros Hbody s HP; simpl.
  - eauto.
  - destruct (Hbody a s) as (s1 & H1 & HP1); [by left|done|].
    rewrite H1. simpl. apply IH; [|done].
    intros b t Hb. apply Hbody. by right.
Qed.

Lemma bind_total {S : Type} (P : S → Prop) (m : option S) (f : S → option S) :
  (∃ s, m = Some s ∧ P s) →
  (∀ s, P s → ∃ s', f s = Some s' ∧ P s') →
  ∃ s', m ≫= f = Some s' ∧ P s'.
Proof. intros (s & -> & Hs) Hf. simpl. by apply Hf. Qed.

(** ** What a cell update leaves alone *)

Lemma keeps_refl {A : Type} (proj : Cell → A) g : keeps proj g g.
Proof. done. Qed.

Lemma keeps_trans {A : Type} (proj : Cell → A) g1 g2 g3 :
  keeps proj g1 g2 → keeps proj g2 g3 → keeps proj g1 g3.
Proof. intros [? ?] [? ?]. split; congruence. Qed.

Lemma modifyIndex_shape f i g g' :
  modifyIndex f i g = Some g' → shape g' = shape g.
Proof.
  unfold modifyIndex. intros H.
  apply bind_Some in H as (c & Hc & H). simplify_eq.
  unfold shape. simpl. by rewrite length_insert.
Qed.

Lemma modifyIndex_keeps {A : Type} (proj : Cell → A) f i g g' :
  (∀ c, proj (f c) = proj c) →
  modifyIndex f i g = Some g' → keeps proj g g'.
Proof.
  intros Hf H. split; [by eapply modifyIndex_shape|].
  unfold modifyIndex in H. apply bind_Some in H as (c & Hc & H). simplify_eq.
  simpl. rewrite list_fmap_insert, Hf.
  apply list_insert_id. by rewrite list_lookup_fmap, Hc.
Qed.

Lemma modifyAt_keeps {A : Type} (proj : Cell → A) f x y g g' :
  (∀ c, proj (f c) = proj c) →
  modifyAt f x y g = Some g' → keeps proj g g'.
Proof.
  intros Hf H. unfold modifyAt in H.
  apply bind_Some in H as (i & _ & H). by eapply modifyIndex_keeps.
Qed.

Lemma keeps_cellAt {A : Type} (proj : Cell → A) g g' x y :
  keeps proj g g' → proj <$> cellAt g' x y = proj <$> cellAt g x y.
Proof.
  intros [Hs Hp]. unfold cellAt, index, shape in *. simplify_eq.
  replace (getColCount g') with (getColCount g) by congruence.
  replace (getRowCount g') with (getRowCount g) by congruence.
  case_decide; simpl; [|done].
  by rewrite <- !list_lookup_fmap, Hp.
Qed.

(** ** The effect of updates, cell by cell *)

Lemma elem_of_upto n i : i ∈ upto n ↔ (i < n)%N.
Proof.
  unfold upto. rewrite list_elem_of_fmap. split.
  - intros (j & -> & Hj%elem_of_seq). lia.
  - intros Hi. exists (N.to_nat i). split; [lia|]. apply elem_of_seq. lia.
Qed.

Lemma NoDup_upto n : NoDup (upto n).
Proof.
  unfold upto. apply NoDup_fmap_2; [|apply NoDup_seq].
  intros i j Hij. lia.
Qed.

Lemma index_Some g x y i :
  index g x y = Some i ↔
  (x < getColCount g)%N ∧ (y < getRowCount g)%N ∧
  i = N.to_nat (y * getColCount g + x).
Proof.
  unfold index. case_decide as Hd; split.
  - intros [= <-]. by destruct Hd.
  - by intros (_ & _ & ->).
  - done.
  - intros (? & ? & _). tauto.
Qed.

Lemma index_inj g x y x' y' i :
  index g x y = Some i → index g x' y' = Some i → x = x' ∧ y = y'.
Proof.
  rewrite !index_Some. intros (Hx & Hy & ->) (Hx' & Hy' & Heq).
  apply N2Nat.inj in Heq.
  assert (y = y') as -> by nia. lia.
Qed.

Lemma index_shape g g' x y : shape g' = shape g → index g' x y = index g x y.
Proof. unfold shape, index. intros [= _ _ -> -> _]. done. Qed.

Lemma index_lt g x y i :
  wf_grid g → index g x y = Some i → i < length (cells g).
Proof.
  intros Hwf (Hx & Hy & ->)%index_Some. rewrite (wf_length g Hwf). nia.
Qed.

Lemma wf_grid_shape g g' : shape g' = shape g → wf_grid g → wf_grid g'.
Proof.
  unfold shape. intros [= _ _ Hc Hr Hl] [? ? ? ?].
  split; congruence.
Qed.

Lemma modifyAt_shape f x y g g' : modifyAt f x y g = Some g' → shape g' = shape g.
Proof.
  unfold modifyAt. intros (i & _ & H)%bind_Some. by eapply modifyIndex_shape.
Qed.

(** Inside a well-formed grid an update succeeds. *)
Lemma modifyAt_total f x y g :
  wf_grid g → (x < getColCount g)%N → (y < getRowCount g)%N →
  ∃ g', modifyAt f x y g = Some g' ∧ shape g' = shape g.
Proof.
  intros Hwf Hx Hy. unfold modifyAt, modifyIndex.
  assert (index g x y = Some (N.to_nat (y * getColCount g + x))) as Hi
    by by apply index_Some.
  rewrite Hi. set (i := N.to_nat _) in *.
  pose proof (index_lt g x y i Hwf Hi) as Hlt.
  destruct (lookup_lt_is_Some_2 (cells g) i Hlt) as [c Hc].
  simpl. rewrite Hc. simpl. eexists. split; [done|].
  unfold shape. simpl. by rewrite length_insert.
Qed.

Lemma acts_id g : acts (λ _ _ c, c) g g.
Proof. split; [done|]. intros x y. by destruct (cellAt g x y). Qed.

Lemma acts_compose fn1 fn2 g1 g2 g3 :
  acts fn1 g1 g2 → acts fn2 g2 g3 →
  acts (λ x y c, fn2 x y (fn1 x y c)) g1 g3.
Proof.
  intros [Hs1 H1] [Hs2 H2]. split; [congruence|].
  intros x y. rewrite H2, H1. by destruct (cellAt g1 x y).
Qed.

Lemma acts_ext fn1 fn2 g g' :
  (∀ x y c, cellAt g x y = Some c → fn1 x y c = fn2 x y c) →
  acts fn1 g g' → acts fn2 g g'.
Proof.
  intros Hext [Hs H]. split; [done|]. intros x y. rewrite H.
  destruct (cellAt g x y) as [c|] eqn:Hc; [|done]. simpl. f_equal. by apply Hext.
Qed.

Lemma modifyAt_acts f x' y' g g' :
  modifyAt f x' y' g = Some g' → acts (at_cell x' y' f) g g'.
Proof.
  intros H. split; [by eapply modifyAt_shape|]. intros x y.
  pose proof (index_shape _ _ x y (modifyAt_shape _ _ _ _ _ H)) as Hs.
  unfold modifyAt, modifyIndex in H.
  apply bind_Some in H as (i & Hi & H).
  apply bind_Some in H as (c & Hc & H). simplify_eq.
  unfold cellAt. rewrite Hs. cbn [cells set_cells].
  destruct (index g x y) as [j|] eqn:Hj; simpl; [|done].
  unfold at_cell. destruct (decide (j = i)) as [->|Hne].
  - destruct (index_inj _ _ _ _ _ _ Hj Hi) as [-> ->].
    rewrite list_lookup_insert_eq by (by eapply lookup_lt_Some).
    rewrite Hc. simpl. by rewrite decide_True.
  - rewrite list_lookup_insert_ne by done.
    destruct (cells g !! j); [|done]. simpl.
    rewrite decide_False; [done|]. intros [-> ->]. congruence.
Qed.

(** A loop acts as its iterations do, one after the other; [P] is an
    invariant the iterations may rely on. *)
Lemma for_each_acts {A : Type} (P : Grid → Prop) (body : A → Grid → option Grid)
    (fn : A → N → N → Cell → Cell) (l : list A) :
  (∀ a h h', a ∈ l → P h → body a h = Some h' → P h' ∧ acts (fn a) h h') →
  ∀ g g', P g → for_each body l g = Some g' →
    P g' ∧ acts (loop_effect fn l) g g'.
Proof.
  induction l as [|a l IH]; intros Hbody g g' HP Hrun; simpl in Hrun.
  - simplify_eq. split; [done|]. apply acts_id.
  - apply bind_Some in Hrun as (g1 & H1 & H2).
    destruct (Hbody a g g1) as [HP1 Ha]; [by left|done..|].
    destruct (IH (λ b h h' Hb, Hbody b h h' (list_elem_of_further _ _ _ Hb)) g1 g' HP1 H2)
      as [HP' Hl].
    split; [done|]. exact (acts_compose _ _ _ _ _ Ha Hl).
Qed.

(** *** Folding cell updates *)

Lemma loop_effect_stable {A : Type} (Q : Cell → Prop) (fn : A → N → N → Cell → Cell)
    l x y c :
  (∀ a c, a ∈ l → Q c → Q (fn a x y c)) → Q c → Q (loop_effect fn l x y c).
Proof.
  unfold loop_effect. revert c.
  induction l as [|a l IH]; intros c Hst Hc; simpl; [done|].
  apply IH; [intros b d Hb; apply Hst; by right|].
  apply Hst; [by left|done].
Qed.

Lemma loop_effect_establish {A : Type} (Q : Cell → Prop)
    (fn : A → N → N → Cell → Cell) l x y c a0 :
  a0 ∈ l → (∀ c, Q (fn a0 x y c)) →
  (∀ a c, a ∈ l → Q c → Q (fn a x y c)) → Q (loop_effect fn l x y c).
Proof.
  unfold loop_effect. revert c.
  induction l as [|a l IH]; intros c Hin Hest Hst; [by apply elem_of_nil in Hin|].
  simpl. apply elem_of_cons in Hin as [->|Hin].
  - apply (loop_effect_stable Q fn l x y); [intros b d Hb; apply Hst; by right|].
    apply Hest.
  - apply IH; [done..|]. intros b d Hb. apply Hst. by right.
Qed.

Lemma loop_effect_frame {A B : Type} (proj : Cell → B)
    (fn : A → N → N → Cell → Cell) l x y c :
  (∀ a c, a ∈ l → proj (fn a x y c) = proj c) →
  proj (loop_effect fn l x y c) = proj c.
Proof.
  intros Hfr.
  apply (loop_effect_stable (λ d, proj d = proj c)); [|done].
  intros a d Ha <-. by apply Hfr.
Qed.

(** *** boundaryCollide, cell by cell *)

Lemma u32_pred n : (0 < n < 2 ^ 32)%N → u32 (Z.of_N n - 1) = (n - 1)%N.
Proof. intros Hn. unfold u32. rewrite Z.mod_small by lia. lia. Qed.

Lemma cellAt_total g x y :
  wf_grid g → (x < getColCount g)%N → (y < getRowCount g)%N →
  is_Some (cellAt g x y).
Proof.
  intros Hwf Hx Hy. unfold cellAt.
  assert (index g x y = Some (N.to_nat (y * getColCount g + x))) as Hi
    by by apply index_Some.
  rewrite Hi. simpl. apply lookup_lt_is_Some_2. by eapply index_lt.
Qed.

Ltac acts_chain :=
  cbv beta in *;
  repeat match goal with
  | H : _ ≫= _ = Some _ |- _ => apply bind_Some in H as (? & ? & H)
  | H : modifyAt _ _ _ _ = Some _ |- _ => apply modifyAt_acts in H
  end;
  repeat match goal with
  | H1 : acts _ ?a ?b, H2 : acts _ ?b ?c |- _ =>
      pose proof (acts_compose _ _ a b c H1 H2); clear H2
  end.

Lemma boundaryCollide_acts g g' :
  boundaryCollide g = Some g' →
  acts (λ x y c,
          loop_effect (boundary_row_effect (u32 (Z.of_N (getColCount g) - 1)))
            (upto (getRowCount g)) x y
            (loop_effect (boundary_col_effect (u32 (Z.of_N (getRowCount g) - 1)))
               (upto (getColCount g)) x y c))
       g g'.
Proof.
  unfold boundaryCollide. cbv zeta. intros (g1 & H1 & H2)%bind_Some.
  eapply acts_compose.
  - eapply (for_each_acts (λ _, True)); [|done|exact H1].
    intros col h h' _ _ Hb. split; [done|]. acts_chain. eassumption.
  - eapply (for_each_acts (λ _, True)); [|done|exact H2].
    intros row h h' _ _ Hb. split; [done|]. acts_chain. eassumption.
Qed.

Lemma boundaryCollide_total g :
  wf_grid g → (0 < getColCount g)%N → (0 < getRowCount g)%N →
  is_Some (boundaryCollide g).
Proof.
  intros Hwf Hc Hr. unfold boundaryCollide. cbv zeta.
  rewrite !u32_pred by (split; [done|apply Hwf]).
  pose (P := λ h, shape h = shape g).
  assert (∀ h, P h → wf_grid h) as HPwf
    by (intros h Hh; by eapply wf_grid_shape).
  assert (∀ h, P h → getColCount h = getColCount g ∧ getRowCount h = getRowCount g)
    as HPdim by (intros h [= _ _ -> -> _]; done).
  assert (∀ f x y h, P h → (x < getColCount g)%N → (y < getRowCount g)%N →
            ∃ h', modifyAt f x y h = Some h' ∧ P h') as Hstep.
  { intros f x y h Hh Hx Hy. destruct (HPdim h Hh) as [Ec Er].
    destruct (modifyAt_total f x y h) as (h' & -> & Hs);
      [by apply HPwf|lia|lia|].
    eexists. split; [done|]. unfold P in *. congruence. }
  assert (∀ i, i ∈ upto (getColCount g) → (i < getColCount g)%N) as Hcol
    by (intros i; apply elem_of_upto).
  assert (∀ i, i ∈ upto (getRowCount g) → (i < getRowCount g)%N) as Hrow
    by (intros i; apply elem_of_upto).
  match goal with |- is_Some (for_each ?b ?l g ≫= _) =>
    destruct (for_each_total P b l) with (s := g) as (g1 & -> & HP1)
  end; [|done|].
  { intros col h Hin%Hcol Hh. cbv beta.
    repeat (apply (bind_total P); [apply Hstep; [done|lia..]|intros ? ?]).
    apply Hstep; [done|lia..]. }
  cbn [mbind option_bind].
  match goal with |- is_Some (for_each ?b ?l g1) =>
    destruct (for_each_total P b l) with (s := g1) as (g2 & -> & HP2)
  end; [|done..].
  intros row h Hin%Hrow Hh. cbv beta.
  repeat (apply (bind_total P); [apply Hstep; [done|lia..]|intros ? ?]).
  apply Hstep; [done|lia..].
Qed.


Ltac effect_cases :=
  unfold boundary_col_effect, boundary_row_effect, at_cell;
  repeat case_decide; simpl; intuition (try congruence; try lia).

(** What the two loops of [boundaryCollide] make of the cell at [(x, y)]
    of a grid of [cols] columns and [rows] rows. *)
Lemma boundary_effect_spec rows cols x y c :
  (x < cols)%N → (y < rows)%N →
  let c' := loop_effect (boundary_row_effect (cols - 1)) (upto rows) x y
              (loop_effect (boundary_col_effect (rows - 1)) (upto cols) x y c) in
  (y = 0%N → vel_Y c' = F32.zero) ∧
  (y = (rows - 1)%N → vel_X c' = F32.zero ∧ vel_Y c' = F32.zero ∧ cellType c' = SOLID) ∧
  (x = 0%N → vel_X c' = F32.zero) ∧
  (x = (cols - 1)%N → vel_X c' = F32.zero ∧ vel_Y c' = F32.zero ∧ cellType c' = SOLID) ∧
  (y ≠ (rows - 1)%N → x ≠ (cols - 1)%N → cellType c' = cellType c).
Proof.
  intros Hx Hy c'. subst c'.
  pose proof (proj2 (elem_of_upto cols x) Hx) as Hxin.
  pose proof (proj2 (elem_of_upto rows y) Hy) as Hyin.
  set (inner := loop_effect (boundary_col_effect (rows - 1)) (upto cols) x y c).
  assert (∀ Q : Cell → Prop,
            (∀ a d, Q d → Q (boundary_row_effect (cols - 1) a x y d)) →
            (∀ a d, Q d → Q (boundary_col_effect (rows - 1) a x y d)) →
            (∀ d, Q (boundary_col_effect (rows - 1) x x y d)) →
            Q (loop_effect (boundary_row_effect (cols - 1)) (upto rows) x y inner))
    as Hcol.
  { intros Q Hrow Hcol Hest. apply loop_effect_stable; [by intros; apply Hrow|].
    by apply (loop_effect_establish Q _ _ _ _ _ x); [|auto..]. }
  assert (∀ Q : Cell → Prop,
            (∀ a d, Q d → Q (boundary_row_effect (cols - 1) a x y d)) →
            (∀ d, Q (boundary_row_effect (cols - 1) y x y d)) →
            Q (loop_effect (boundary_row_effect (cols - 1)) (upto rows) x y inner))
    as Hrow.
  { intros Q Hst Hest.
    by apply (loop_effect_establish Q _ _ _ _ _ y); [|auto..]. }
  split; [|split; [|split; [|split]]].
  - intros ->. apply (Hcol (λ d, vel_Y d = F32.zero)); intros; effect_cases.
  - intros ->. repeat split.
    + apply (Hcol (λ d, vel_X d = F32.zero)); intros; effect_cases.
    + apply (Hcol (λ d, vel_Y d = F32.zero)); intros; effect_cases.
    + apply (Hcol (λ d, cellType d = SOLID)); intros; effect_cases.
  - intros ->. apply (Hrow (λ d, vel_X d = F32.zero)); intros; effect_cases.
  - intros ->. repeat split.
    + apply (Hrow (λ d, vel_X d = F32.zero)); intros; effect_cases.
    + apply (Hrow (λ d, vel_Y d = F32.zero)); intros; effect_cases.
    + apply (Hrow (λ d, cellType d = SOLID)); intros; effect_cases.
  - intros Hny Hnx.
    rewrite (loop_effect_frame cellType) by (intros; effect_cases).
    unfold inner. apply (loop_effect_frame cellType). intros; effect_cases.
Qed.

(** The grid [boundaryCollide] returns, cell by cell. *)
Lemma boundaryCollide_cells g :
  wf_grid g → (0 < getColCount g)%N → (0 < getRowCount g)%N →
  ∃ g', boundaryCollide g = Some g' ∧
    ∀ x y, (x < getColCount g)%N → (y < getRowCount g)%N →
      ∃ c, cellAt g x y = Some c ∧
        cellAt g' x y =
          Some (loop_effect (boundary_row_effect (getColCount g - 1))
                  (upto (getRowCount g)) x y
                  (loop_effect (boundary_col_effect (getRowCount g - 1))
                     (upto (getColCount g)) x y c)).
Proof.
  intros Hwf Hc Hr.
  destruct (boundaryCollide_total g Hwf Hc Hr) as [g' Hg'].
  exists g'. split; [done|]. intros x y Hx Hy.
  destruct (cellAt_total g x y Hwf Hx Hy) as [c Hcell].
  exists c. split; [done|].
  destruct (boundaryCollide_acts g g' Hg') as [_ Hacts].
  rewrite Hacts, Hcell. simpl.
  by rewrite !u32_pred by (split; [done|apply Hwf]).
Qed.

(** When one iteration only changes the field [proj], and changes it by
    [φ], the loop changes it by [φ]. *)
Lemma loop_effect_proj_single {A B : Type} (proj : Cell → B)
    (fn : A → N → N → Cell → Cell) (φ : B → B) l x y c a0 :
  NoDup l → a0 ∈ l →
  (∀ c, proj (fn a0 x y c) = φ (proj c)) →
  (∀ a c, a ∈ l → a ≠ a0 → proj (fn a x y c) = proj c) →
  proj (loop_effect fn l x y c) = φ (proj c).
Proof.
  revert c.
  induction l as [|a l IH]; intros c Hnd Hin Hact Hid; [by apply elem_of_nil in Hin|].
  pose proof (NoDup_cons_1_1 _ _ Hnd) as Hnotin.
  apply NoDup_cons_1_2 in Hnd.
  change (loop_effect fn (a :: l) x y c) with (loop_effect fn l x y (fn a x y c)).
  apply elem_of_cons in Hin as [->|Hin].
  - rewrite (loop_effect_frame proj); [done|].
    intros b d Hb. apply Hid; [by right|]. intros ->. done.
  - rewrite IH; [|done..|intros b d Hb; apply Hid; by right].
    f_equal. apply Hid; [by left|]. intros ->. done.
Qed.

(** ** The fields each stage leaves alone *)

Section Frame.

Context {grid_impl : GridImpl} {A : Type} (proj : Cell → A).

Ltac ignores :=
  intros; unfold add_vel, sub_vel;
  match goal with H : _ |- _ => by apply H end.

Ltac chain :=
  cbv beta in *;
  repeat match goal with
  | H : _ ≫= _ = Some _ |- _ => apply bind_Some in H as (? & ? & H)
  | H : modifyAt _ _ _ _ = Some _ |- _ =>
      apply (modifyAt_keeps proj) in H; [|ignores]
  | H : modifyIndex _ _ _ = Some _ |- _ =>
      apply (modifyIndex_keeps proj) in H; [|ignores]
  end;
  repeat match goal with
  | H1 : keeps proj ?a ?b, H2 : keeps proj ?b ?c |- _ =>
      pose proof (keeps_trans proj a b c H1 H2); clear H2
  end;
  try done.

Lemma for_each_keeps {B : Type} (body : B → Grid → option Grid) l g g' :
  (∀ b h h', body b h = Some h' → keeps proj h h') →
  for_each body l g = Some g' → keeps proj g g'.
Proof.
  intros Hbody. apply (for_each_invariant (keeps proj g)); [|apply keeps_refl].
  intros b h h' _ Hh Hrun. eapply keeps_trans; eauto.
Qed.

Lemma float_for_keeps (body : float → Grid → option Grid) fuel x bound g g' :
  (∀ v h h', body v h = Some h' → keeps proj h h') →
  float_for fuel x bound body g = Some g' → keeps proj g g'.
Proof.
  intros Hbody. apply (float_for_invariant (keeps proj g)); [|apply keeps_refl].
  intros v h h' Hh Hrun. eapply keeps_trans; eauto.
Qed.

Lemma pushToNeighbor_keeps n d v x y g g' :
  ignores_vel proj → pushToNeighbor n d v x y g = Some g' → keeps proj g g'.
Proof.
  intros Hv H. unfold pushToNeighbor in H.
  destruct (neighbor g n x y) as [[x' y']|]; [chain|].
  simplify_eq. apply keeps_refl.
Qed.

Lemma pressureSolve_cell_keeps dt x y g g' :
  ignores_vel proj → pressureSolve_cell dt x y g = Some g' → keeps proj g g'.
Proof.
  intros Hv H. unfold pressureSolve_cell in H.
  apply bind_Some in H as (cell & _ & H).
  case_decide; [|simplify_eq; apply keeps_refl].
  apply bind_Some in H as (g1 & H1 & H).
  apply bind_Some in H as (g2 & H2 & H).
  apply bind_Some in H as (g3 & H3 & H4).
  apply pushToNeighbor_keeps in H3, H4; [|done..].
  chain.
Qed.

Lemma pressureSolve_keeps dt g g' :
  ignores_vel proj →
  pressureSolve dt g = Some g' → keeps proj g g'.
Proof.
  intros Hv H. unfold pressureSolve in H.
  apply bind_Some in H as (g1 & H1 & H).
  apply bind_Some in H as (divergence & _ & ?). simplify_eq.
  eapply for_each_keeps; [|exact H1].
  intros x h h' Hx. eapply for_each_keeps; [|exact Hx].
  intros y k k'. by apply pressureSolve_cell_keeps.
Qed.

Lemma boundaryCollide_keeps g g' :
  ignores_vel proj → ignores_cellType proj →
  boundaryCollide g = Some g' → keeps proj g g'.
Proof.
  intros Hv Ht H. unfold boundaryCollide in H.
  apply bind_Some in H as (g1 & H1 & H2).
  eapply keeps_trans.
  - eapply for_each_keeps; [|exact H1]. intros col h h' Hb. chain.
  - eapply for_each_keeps; [|exact H2]. intros row h h' Hb. chain.
Qed.

Lemma applyGlobalVelocity_keeps velocity g g' :
  ignores_vel proj → applyGlobalVelocity velocity g = Some g' → keeps proj g g'.
Proof.
  intros Hv H. unfold applyGlobalVelocity in H.
  eapply for_each_keeps; [|exact H]. intros i h h' Hb. chain.
Qed.

Lemma advectFace_keeps d dt x y g g' :
  ignores_stagedVel proj →
  advectFace d dt x y g = Some g' → keeps proj g g'.
Proof. intros Hs H. unfold advectFace in H. chain. Qed.

Lemma advectVelocity_keeps fuel dt g g' :
  ignores_stagedVel proj → ignores_commit proj →
  advectVelocity fuel dt g = Some g' → keeps proj g g'.
Proof.
  intros Hs Hc H. unfold advectVelocity in H.
  apply bind_Some in H as (g1 & H1 & H).
  apply bind_Some in H as (g2 & H2 & H3).
  eapply keeps_trans; [|eapply keeps_trans].
  - eapply float_for_keeps; [|exact H1]. intros v h h' Hv.
    eapply float_for_keeps; [|exact Hv]. intros w k k'. by apply advectFace_keeps.
  - eapply float_for_keeps; [|exact H2]. intros v h h' Hv.
    eapply float_for_keeps; [|exact Hv]. intros w k k'. by apply advectFace_keeps.
  - eapply for_each_keeps; [|exact H3]. intros i h h' Hb. chain.
Qed.

End Frame.

(** *** pressureSolve, cell by cell *)

Lemma cellAt_Some_bounds g x y c :
  cellAt g x y = Some c → (x < getColCount g)%N ∧ (y < getRowCount g)%N.
Proof.
  unfold cellAt. intros (i & Hi & _)%bind_Some.
  apply index_Some in Hi. tauto.
Qed.

Lemma pushToNeighbor_acts_X pressureVel x' y' g g' :
  pushToNeighbor POS_X X pressureVel x' y' g = Some g' →
  acts (at_cell (x' + 1) y' (add_vel X pressureVel)) g g'.
Proof.
  unfold pushToNeighbor, neighbor. case_decide as Hd.
  - apply modifyAt_acts.
  - intros [= <-]. eapply acts_ext; [|apply acts_id].
    intros x y c [Hx _]%cellAt_Some_bounds. unfold at_cell.
    rewrite decide_False; [done|]. intros [-> _]. done.
Qed.

Lemma pushToNeighbor_acts_Y pressureVel x' y' g g' :
  pushToNeighbor POS_Y Y pressureVel x' y' g = Some g' →
  acts (at_cell x' (y' + 1) (add_vel Y pressureVel)) g g'.
Proof.
  unfold pushToNeighbor, neighbor. case_decide as Hd.
  - apply modifyAt_acts.
  - intros [= <-]. eapply acts_ext; [|apply acts_id].
    intros x y c [_ Hy]%cellAt_Some_bounds. unfold at_cell.
    rewrite decide_False; [done|]. intros [_ ->]. done.
Qed.

(** The correction read during the run is the one the initial grid gives:
    no iteration changes a pressure or a type. *)
Lemma pressureVelAt_keeps dt g h x y :
  keeps static g h → pressureVelAt dt h x y = pressureVelAt dt g x y.
Proof.
  intros Hk. pose proof (keeps_cellAt static g h x y Hk) as Hc.
  unfold pressureVelAt.
  destruct (cellAt h x y) as [c|], (cellAt g x y) as [c0|]; simpl in *;
    try done.
  injection Hc as -> ->. done.
Qed.

Lemma pressureSolve_cell_acts dt g h h' x' y' :
  keeps static g h → pressureSolve_cell dt x' y' h = Some h' →
  keeps static g h' ∧ acts (pressure_effect dt g x' y') h h'.
Proof.
  intros Hk Hrun. split.
  { eapply keeps_trans; [done|].
    by eapply (pressureSolve_cell_keeps static); [intros []|]. }
  unfold pressure_effect. rewrite <- (pressureVelAt_keeps dt g h x' y' Hk).
  unfold pressureSolve_cell, pressureVelAt in *.
  destruct (cellAt h x' y') as [cell|]; simpl in *; [|done].
  case_decide; [|simplify_eq; apply acts_id].
  apply bind_Some in Hrun as (h1 & H1 & Hrun).
  apply bind_Some in Hrun as (h2 & H2 & Hrun).
  apply bind_Some in Hrun as (h3 & H3 & H4).
  apply modifyAt_acts in H1, H2.
  apply pushToNeighbor_acts_X in H3. apply pushToNeighbor_acts_Y in H4.
  pose proof (acts_compose _ _ _ _ _ H1 H2) as H12.
  pose proof (acts_compose _ _ _ _ _ H12 H3) as H123.
  exact (acts_compose _ _ _ _ _ H123 H4).
Qed.


Lemma pressure_effect_frame {B : Type} (proj : Cell → B) dt g x' y' x y c :
  (∀ d v c, proj (set_vel d v c) = proj c) →
  proj (pressure_effect dt g x' y' x y c) = proj c.
Proof.
  intros Hv. unfold pressure_effect, at_cell, add_vel, sub_vel.
  destruct (pressureVelAt dt g x' y'); [|done].
  repeat case_decide; by rewrite ?Hv.
Qed.

Lemma pressure_effect_vel_X dt g x' y' x y c :
  vel_X (pressure_effect dt g x' y' x y c) =
    match pressureVelAt dt g x' y' with
    | Some pv =>
        let v := if decide (x = x' ∧ y = y') then F32.sub (vel_X c) pv else vel_X c in
        if decide (x = (x' + 1)%N ∧ y = y') then F32.add v pv else v
    | None => vel_X c
    end.
Proof.
  unfold pressure_effect, at_cell.
  destruct (pressureVelAt dt g x' y'); [|done].
  repeat case_decide; simpl; done.
Qed.

Lemma pressure_effect_vel_Y dt g x' y' x y c :
  vel_Y (pressure_effect dt g x' y' x y c) =
    match pressureVelAt dt g x' y' with
    | Some pv =>
        let v := if decide (x = x' ∧ y = y') then F32.sub (vel_Y c) pv else vel_Y c in
        if decide (x = x' ∧ y = (y' + 1)%N) then F32.add v pv else v
    | None => vel_Y c
    end.
Proof.
  unfold pressure_effect, at_cell.
  destruct (pressureVelAt dt g x' y'); [|done].
  repeat case_decide; simpl; done.
Qed.

(** Decide which of the updates of an iteration reach the cell. *)
Ltac pick_face :=
  cbv zeta; repeat case_decide; try done; exfalso;
  first [lia | tauto | intuition lia].

Section PressureSolve.

Context {grid_impl : GridImpl}.

(** The grid [pressureSolve] returns, cell by cell: the iterations of the
    first loop nest applied in order, [x'] outer and [y'] inner. *)
Lemma pressureSolve_acts dt g g' :
  pressureSolve dt g = Some g' →
  acts (loop_effect
          (λ x', loop_effect (pressure_effect dt g x') (upto (getRowCount g)))
          (upto (getColCount g)))
       g g'.
Proof.
  unfold pressureSolve. intros (g1 & H1 & H2)%bind_Some.
  apply bind_Some in H2 as (divergence & _ & [= <-]).
  eapply (for_each_acts (keeps static g)); [|apply keeps_refl|exact H1].
  intros x' h h' _ Hk Hin.
  eapply (for_each_acts (keeps static g)); [|exact Hk|exact Hin].
  intros y' k k' _. apply pressureSolve_cell_acts.
Qed.

(** The velocity of a cell that is not [FLUID], after the first loop nest:
    only the cell before it along each axis can have pushed into it. *)
Lemma pressure_loops_nonfluid dt g x y c d :
  cellAt g x y = Some c → cellType c ≠ FLUID →
  vel (loop_effect
         (λ x', loop_effect (pressure_effect dt g x') (upto (getRowCount g)))
         (upto (getColCount g)) x y c) d =
    match pressureFrom dt g x y d with
    | Some pv => F32.add (vel c d) pv
    | None => vel c d
    end.
Proof.
  intros Hcell Hsolid.
  destruct (cellAt_Some_bounds g x y c Hcell) as [Hx Hy].
  assert (pressureVelAt dt g x y = None) as Hself.
  { unfold pressureVelAt. rewrite Hcell. simpl. by rewrite decide_False. }
  assert (∀ x' y' pv, pressureVelAt dt g x' y' = Some pv → ¬ (x = x' ∧ y = y'))
    as Hnot by (intros x' y' pv Hp [<- <-]; congruence).
  destruct d; unfold vel, pressureFrom.
  - (* X: only the iteration (x - 1, y) can reach this face *)
    destruct (decide (x = 0%N)) as [->|Hx0];
      [|destruct (pressureVelAt dt g (x - 1) y) as [pv|] eqn:Hleft].
    + apply (loop_effect_frame vel_X). intros x' d _.
      apply (loop_effect_frame vel_X). intros y' e _.
      rewrite pressure_effect_vel_X.
      destruct (pressureVelAt dt g x' y') eqn:Hp; [|done].
      apply Hnot in Hp. pick_face.
    + apply (loop_effect_proj_single vel_X _ (λ v, F32.add v pv) _ _ _ _ (x - 1)%N);
        [apply NoDup_upto|apply elem_of_upto; lia|..].
      * intros e.
        apply (loop_effect_proj_single vel_X _ (λ v, F32.add v pv) _ _ _ _ y);
          [apply NoDup_upto|by apply elem_of_upto|..].
        -- intros f. rewrite pressure_effect_vel_X, Hleft. pick_face.
        -- intros y' f _ Hne. rewrite pressure_effect_vel_X.
           destruct (pressureVelAt dt g (x - 1) y'); [|done]. pick_face.
      * intros x' e _ Hne. apply (loop_effect_frame vel_X). intros y' f _.
        rewrite pressure_effect_vel_X.
        destruct (pressureVelAt dt g x' y') eqn:Hp; [|done].
        apply Hnot in Hp. pick_face.
    + apply (loop_effect_frame vel_X). intros x' e _.
      apply (loop_effect_frame vel_X). intros y' f _.
      rewrite pressure_effect_vel_X.
      destruct (pressureVelAt dt g x' y') eqn:Hp; [|done].
      pose proof (Hnot _ _ _ Hp).
      assert (¬ (x = (x' + 1)%N ∧ y = y')).
      { intros [-> <-]. rewrite N.add_sub in Hleft. congruence. }
      pick_face.
  - (* Y: only the iteration (x, y - 1) can reach this face *)
    destruct (decide (y = 0%N)) as [->|Hy0];
      [|destruct (pressureVelAt dt g x (y - 1)) as [pv|] eqn:Hbelow].
    + apply (loop_effect_frame vel_Y). intros x' d _.
      apply (loop_effect_frame vel_Y). intros y' e _.
      rewrite pressure_effect_vel_Y.
      destruct (pressureVelAt dt g x' y') eqn:Hp; [|done].
      apply Hnot in Hp. pick_face.
    + apply (loop_effect_proj_single vel_Y _ (λ v, F32.add v pv) _ _ _ _ x);
        [apply NoDup_upto|by apply elem_of_upto|..].
      * intros e.
        apply (loop_effect_proj_single vel_Y _ (λ v, F32.add v pv) _ _ _ _ (y - 1)%N);
          [apply NoDup_upto|apply elem_of_upto; lia|..].
        -- intros f. rewrite pressure_effect_vel_Y, Hbelow. pick_face.
        -- intros y' f _ Hne. rewrite pressure_effect_vel_Y.
           destruct (pressureVelAt dt g x y') eqn:Hp; [|done].
           apply Hnot in Hp. pick_face.
      * intros x' e _ Hne. apply (loop_effect_frame vel_Y). intros y' f _.
        rewrite pressure_effect_vel_Y.
        destruct (pressureVelAt dt g x' y'); [|done]. pick_face.
    + apply (loop_effect_frame vel_Y). intros x' e _.
      apply (loop_effect_frame vel_Y). intros y' f _.
      rewrite pressure_effect_vel_Y.
      destruct (pressureVelAt dt g x' y') eqn:Hp; [|done].
      pose proof (Hnot _ _ _ Hp).
      assert (¬ (x = x' ∧ y = (y' + 1)%N)).
      { intros [<- ->]. rewrite N.add_sub in Hbelow. congruence. }
      pick_face.
Qed.

Lemma u32_index g x y :
  wf_grid g → (x < getColCount g)%N → (y < getRowCount g)%N →
  u32 (Z.of_N y * Z.of_N (getColCount g) + Z.of_N x) = (y * getColCount g + x)%N.
Proof.
  intros Hwf Hx Hy. pose proof (wf_count g Hwf). unfold u32.
  rewrite Z.mod_small by nia. lia.
Qed.

Lemma cellCount_wf g : wf_grid g → cellCount g = (getRowCount g * getColCount g)%N.
Proof.
  intros Hwf. pose proof (wf_count g Hwf). unfold cellCount, u32.
  rewrite Z.mod_small by nia. lia.
Qed.

Lemma pushToNeighbor_total n d v x y g :
  wf_grid g → (x < getColCount g)%N → (y < getRowCount g)%N →
  ∃ g', pushToNeighbor n d v x y g = Some g' ∧ shape g' = shape g.
Proof.
  intros Hwf Hx Hy. unfold pushToNeighbor, neighbor.
  destruct n; case_decide; eauto; apply modifyAt_total; (done || lia).
Qed.

Lemma pressureSolve_cell_total dt x y g :
  wf_grid g → (x < getColCount g)%N → (y < getRowCount g)%N →
  ∃ g', pressureSolve_cell dt x y g = Some g' ∧ shape g' = shape g.
Proof.
  intros Hwf Hx Hy. unfold pressureSolve_cell.
  destruct (cellAt_total g x y Hwf Hx Hy) as [cell ->]. simpl.
  case_decide; [|eauto].
  pose (P := λ h, shape h = shape g).
  assert (∀ h, P h →
            wf_grid h ∧ (x < getColCount h)%N ∧ (y < getRowCount h)%N) as Hh.
  { intros h Hs. split; [by eapply wf_grid_shape|].
    unfold P, shape in Hs. injection Hs as _ _ -> -> _. done. }
  assert (∀ f h, P h → ∃ h', modifyAt f x y h = Some h' ∧ P h') as Hmod.
  { intros f h Hs. destruct (Hh h Hs) as (? & ? & ?).
    destruct (modifyAt_total f x y h) as (h' & -> & ?); [done..|].
    eexists. split; [done|]. unfold P in *. congruence. }
  assert (∀ n d v h, P h → ∃ h', pushToNeighbor n d v x y h = Some h' ∧ P h')
    as Hpush.
  { intros n d v h Hs. destruct (Hh h Hs) as (? & ? & ?).
    destruct (pushToNeighbor_total n d v x y h) as (h' & -> & ?); [done..|].
    eexists. split; [done|]. unfold P in *. congruence. }
  repeat (apply (bind_total P); [by apply Hmod || by apply Hpush|intros ? ?]).
  by apply Hpush.
Qed.

(** On a well-formed grid [pressureSolve] returns: every cell it touches
    and every entry of [divergence] it writes exists. *)
Lemma pressureSolve_total dt g : wf_grid g → is_Some (pressureSolve dt g).
Proof.
  intros Hwf. unfold pressureSolve.
  pose (P := λ h, shape h = shape g).
  assert (∀ h, P h → wf_grid h ∧ getColCount h = getColCount g
                     ∧ getRowCount h = getRowCount g) as HP.
  { intros h Hs. split; [by eapply wf_grid_shape|].
    unfold P, shape in Hs. injection Hs as _ _ -> -> _. done. }
  match goal with |- is_Some (for_each ?b ?l g ≫= _) =>
    destruct (for_each_total P b l) with (s := g) as (g1 & -> & HP1)
  end; [|done|].
  { intros x h Hx%elem_of_upto Hh.
    apply (for_each_total P); [|done].
    intros y k Hy%elem_of_upto Hk. destruct (HP k Hk) as (Hwfk & Ec & Er).
    destruct (pressureSolve_cell_total dt x y k) as (k' & -> & Hs);
      [done|lia|lia|].
    eexists. split; [done|]. unfold P in *. congruence. }
  cbn [mbind option_bind].
  destruct (HP g1 HP1) as (Hwf1 & Ec & Er).
  unfold pressureSolve_divergence.
  match goal with |- is_Some (for_each ?b ?l ?d ≫= _) =>
    destruct (for_each_total
                (λ div : list float, length div = N.to_nat (cellCount g1)) b l)
      with (s := d) as (div & -> & _)
  end; [|by rewrite length_replicate|done].
  intros [x y] div Hin Hlen. cbn [fst snd].
  apply list_elem_of_bind in Hin as (x' & Hin & Hx%elem_of_upto).
  apply list_elem_of_bind in Hin as (y' & Hin & Hy%elem_of_upto).
  apply list_elem_of_singleton in Hin as [= <- <-].
  rewrite u32_index by done.
  destruct (lookup_lt_is_Some_2 div (N.to_nat (y * getColCount g1 + x))) as [v ->].
  { rewrite Hlen, cellCount_wf by done. nia. }
  simpl. eexists. split; [done|]. by rewrite length_insert.
Qed.

(** C4 (amended).  [pressureSolve] returns on a well-formed grid.  It
    derives no correction from a cell that is not [FLUID], yet such a cell
    is not left alone: its pressure, type and staged velocity are unchanged,
    and each velocity component is changed exactly by what the [FLUID] cell
    before it along that axis, if there is one, adds to the face they
    share. *)
Theorem pressureSolve_nonfluid_cell dt g x y c :
  wf_grid g → cellAt g x y = Some c → cellType c ≠ FLUID →
  ∃ g' c', pressureSolve dt g = Some g' ∧ cellAt g' x y = Some c' ∧
    pressure c' = pressure c ∧ cellType c' = cellType c ∧
    (∀ d, stagedVel c' d = stagedVel c d) ∧
    (∀ d, vel c' d =
           match pressureFrom dt g x y d with
           | Some pressureVel => F32.add (vel c d) pressureVel
           | None => vel c d
           end).
Proof.
  intros Hwf Hcell Hsolid.
  destruct (pressureSolve_total dt g Hwf) as [g' Hrun].
  destruct (pressureSolve_acts dt g g' Hrun) as [_ Hacts].
  exists g'. eexists. split; [done|]. split; [by rewrite Hacts, Hcell|].
  assert (∀ (B : Type) (proj : Cell → B),
            (∀ d v c, proj (set_vel d v c) = proj c) →
            proj (loop_effect
                    (λ x', loop_effect (pressure_effect dt g x') (upto (getRowCount g)))
                    (upto (getColCount g)) x y c) = proj c) as Hframe.
  { intros B proj Hv. apply (loop_effect_frame proj). intros x' d _.
    apply (loop_effect_frame proj). intros y' e _.
    by apply pressure_effect_frame. }
  split; [by apply (Hframe _ pressure); intros []|].
  split; [by apply (Hframe _ cellType); intros []|].
  split.
  - intros []; [by apply (Hframe _ stagedVel_X); intros []
               |by apply (Hframe _ stagedVel_Y); intros []].
  - intros d. by apply pressure_loops_nonfluid.
Qed.

End PressureSolve.

(** ** Facts of single-precision arithmetic used below *)







Lemma leb_nonpositive_ltb x : F32.leb x F32.zero = true → F32.ltb F32.zero x = false.
Proof. by destruct x as [[]|[]| |[] m e]. Qed.

(** ** Properties of the frame loop, the constructor and reset *)

Section Claims.

Context {grid_impl : GridImpl} {seed_field : SeedField}.

(** The clamp of [advectVelocity] and the two coordinates.  Whenever [y]
    exceeds the width, [x] becomes the width, wherever it was; and an [x]
    that is not negative is otherwise left as it is, beyond the width too. *)
Lemma clampPosition_x_from_y g position :
  F32.gtb (vec_y position) (getWidth g) = true →
  vec_x (clampPosition g position) = getWidth g.
Proof.
  intros Hy. unfold clampPosition.
  assert (vec_y (if F32.ltb (vec_x position) F32.zero
                 then zeroX position else position) = vec_y position) as Hq
    by (by destruct (F32.ltb _ _)).
  cbv zeta. rewrite Hq, Hy.
  repeat match goal with |- context [if ?b then _ else _] => destruct b end; done.
Qed.

Lemma clampPosition_x_kept g position :
  F32.ltb (vec_x position) F32.zero = false →
  F32.gtb (vec_y position) (getWidth g) = false →
  vec_x (clampPosition g position) = vec_x position.
Proof.
  intros Hx Hy. unfold clampPosition. cbv zeta. rewrite Hx, Hy.
  repeat match goal with |- context [if ?b then _ else _] => destruct b end; done.
Qed.

Lemma frameTime_positive : F32.leb frameTime F32.zero = false.
Proof. vm_compute. reflexivity. Qed.

Lemma frameTime_spent :
  F32.leb (F32.sub frameTime frameTime) F32.zero = true.
Proof. vm_compute. reflexivity. Qed.

Lemma advanceFrame_loop_unfold fuel gas frameTimeSec s trace :
  advanceFrame_loop (S fuel) gas frameTimeSec s trace =
    if _frameReady s then Some (s, trace)
    else if F32.leb frameTimeSec F32.zero
    then Some (set_frameReady true s, trace)
    else
      let mag := magnitude (getMaxVelocity (_grid s)) in
      let cfl := F32.div CFLCoefficient mag in
      let dt := if F32.gtb cfl frameTimeSec then frameTimeSec else cfl in
      s' ← advanceTimeStep gas dt s;
      advanceFrame_loop fuel gas (F32.sub frameTimeSec dt) s'
        (trace ++ [mkSubStep mag cfl dt]).
Proof. reflexivity. Qed.

(** A sub-step does not touch the flag. *)
Lemma advanceTimeStep_frameReady gas dt s s' :
  advanceTimeStep gas dt s = Some s' → _frameReady s' = _frameReady s.
Proof.
  unfold advanceTimeStep. intros H.
  repeat (apply bind_Some in H as (? & _ & H)). by simplify_eq.
Qed.

(** Whenever the quotient of line 84 exceeds the frame time, the loop runs
    one sub-step of the whole frame time and stops at its next test. *)
Lemma advanceFrame_single_substep fuel gas s s1 :
  _frameReady s = false →
  F32.gtb (F32.div CFLCoefficient (magnitude (getMaxVelocity (_grid s))))
          frameTime = true →
  advanceTimeStep gas frameTime s = Some s1 →
  advanceFrame_trace (S (S fuel)) gas s =
    Some (set_frameReady true s1,
          [mkSubStep (magnitude (getMaxVelocity (_grid s)))
             (F32.div CFLCoefficient (magnitude (getMaxVelocity (_grid s))))
             frameTime]).
Proof.
  intros Hready Hcfl Hstep. unfold advanceFrame_trace.
  rewrite advanceFrame_loop_unfold, Hready, frameTime_positive.
  cbv zeta. rewrite Hcfl, Hstep. cbn [mbind option_bind].
  rewrite advanceFrame_loop_unfold, (advanceTimeStep_frameReady _ _ _ _ Hstep), Hready.
  by rewrite frameTime_spent.
Qed.

(** C10.  With the frame-ready flag set, [advanceFrame] runs no sub-step and
    returns the solver as it was: grid, particles and flag. *)
Theorem advanceFrame_ready_noop fuel gas s :
  _frameReady s = true →
  advanceFrame_trace (S fuel) gas s = Some (s, []) ∧
  advanceFrame (S fuel) gas s = Some s.
Proof.
  intros Hready. unfold advanceFrame, advanceFrame_trace.
  by rewrite advanceFrame_loop_unfold, Hready.
Qed.

(** C9.  A sub-step writes no pressure: after [advanceTimeStep] the grid has
    its shape and every cell has the pressure it had, whatever the step.  In
    particular [pressureSolve], which drops the divergence it computes,
    returns every grid with the pressures it came with. *)
Theorem advanceTimeStep_preserves_pressure fuel dt s s' :
  advanceTimeStep fuel dt s = Some s' →
  shape (_grid s') = shape (_grid s) ∧
  pressure <$> cells (_grid s') = pressure <$> cells (_grid s) ∧
  (∀ x y, pressure <$> cellAt (_grid s') x y = pressure <$> cellAt (_grid s) x y) ∧
  (∀ g g', pressureSolve dt g = Some g' →
     pressure <$> cells g' = pressure <$> cells g).
Proof.
  intros H.
  assert (∀ g g', pressureSolve dt g = Some g' →
            pressure <$> cells g' = pressure <$> cells g) as Hsolve.
  { intros g g' Hg.
    by apply (pressureSolve_keeps pressure) in Hg as [_ ?]; [|intros []]. }
  unfold advanceTimeStep in H.
  apply bind_Some in H as (g1 & H1 & H).
  apply bind_Some in H as (g2 & H2 & H).
  apply bind_Some in H as (g3 & H3 & H).
  apply bind_Some in H as (g4 & H4 & H). simplify_eq. simpl.
  apply (advectVelocity_keeps pressure) in H1; [|by intros []|done].
  apply (applyGlobalVelocity_keeps pressure) in H2; [|by intros []].
  apply (pressureSolve_keeps pressure) in H3; [|by intros []].
  apply (boundaryCollide_keeps pressure) in H4; [|by intros []|done].
  assert (keeps pressure (_grid s) g4) as Hk
    by (repeat (eapply keeps_trans; [eassumption|]); apply keeps_refl).
  split; [apply Hk|]. split; [apply Hk|]. split; [|done].
  intros x y. by apply keeps_cellAt.
Qed.


(** C8 (amended).  The constructor validates nothing.  With a non-positive
    width or height and a grid [g0] from [Grid]'s constructor, whenever
    construction returns it returns the solver holding [g0], no particle and
    a cleared flag: [reset]'s loops never reach their body.  With a
    non-positive height it does return. *)
Theorem FluidSolver_new_nonpositive width height g0 :
  F32.leb width F32.zero = true ∨ F32.leb height F32.zero = true →
  Grid_new width height = Some g0 →
  (∀ fuel s, FluidSolver_new fuel width height = Some s →
     s = mkFluidSolver width height g0 false []) ∧
  (F32.leb height F32.zero = true →
     ∀ fuel, FluidSolver_new (S fuel) width height =
       Some (mkFluidSolver width height g0 false [])).
Proof.
  intros Hsize Hnew. unfold FluidSolver_new, reset. cbn [_width _height].
  rewrite Hnew. cbn [mbind option_bind]. split.
  - intros fuel s Hrun. apply bind_Some in Hrun as (st & Hloop & Hs).
    assert (st = (g0, [])) as ->; [|by simplify_eq].
    destruct Hsize as [Hw%leb_nonpositive_ltb|Hh%leb_nonpositive_ltb].
    + eapply (float_for_invariant (λ st, st = (g0, []))); [|done|exact Hloop].
      intros y t t' -> Hin. destruct fuel as [|fuel]; [done|].
      simpl in Hin. rewrite Hw in Hin. by simplify_eq.
    + destruct fuel as [|fuel]; [done|].
      simpl in Hloop. rewrite Hh in Hloop. by simplify_eq.
  - intros Hh%leb_nonpositive_ltb fuel. simpl. by rewrite Hh.
Qed.

End Claims.

(** ** Properties of boundaryCollide *)

(** C2.  On a well-formed grid with at least one cell [boundaryCollide]
    returns, and in the grid it returns the bottom row's Y velocity, the top
    row's X and Y velocities, the left column's X velocity and the right
    column's X and Y velocities are [0.0f]. *)
Theorem boundaryCollide_zeroes_edge_faces g :
  wf_grid g → (0 < getColCount g)%N → (0 < getRowCount g)%N →
  ∃ g', boundaryCollide g = Some g' ∧
    ∀ x y, (x < getColCount g)%N → (y < getRowCount g)%N →
      ∃ c, cellAt g' x y = Some c ∧
        (y = 0%N → vel c Y = F32.zero) ∧
        (y = (getRowCount g - 1)%N → vel c X = F32.zero ∧ vel c Y = F32.zero) ∧
        (x = 0%N → vel c X = F32.zero) ∧
        (x = (getColCount g - 1)%N → vel c X = F32.zero ∧ vel c Y = F32.zero).
Proof.
  intros Hwf Hc Hr.
  destruct (boundaryCollide_cells g Hwf Hc Hr) as (g' & Hg' & Hcells).
  exists g'. split; [done|]. intros x y Hx Hy.
  destruct (Hcells x y Hx Hy) as (c & _ & ->).
  eexists. split; [done|].
  destruct (boundary_effect_spec (getRowCount g) (getColCount g) x y c Hx Hy)
    as (Hbottom & Htop & Hleft & Hright & _).
  unfold vel. split; [exact Hbottom|]. split; [|split; [exact Hleft|]].
  - intros Hedge. destruct (Htop Hedge) as (? & ? & _). by split.
  - intros Hedge. destruct (Hright Hedge) as (? & ? & _). by split.
Qed.

(** C5 (amended).  On a well-formed grid with at least one cell
    [boundaryCollide] returns, and it marks [SOLID] exactly the top row and
    the right column: every other cell, the rest of the bottom row and of
    the left column included, keeps its type. *)
Theorem boundaryCollide_marks_top_and_right g :
  wf_grid g → (0 < getColCount g)%N → (0 < getRowCount g)%N →
  ∃ g', boundaryCollide g = Some g' ∧
    ∀ x y, (x < getColCount g)%N → (y < getRowCount g)%N →
      ∃ c c', cellAt g x y = Some c ∧ cellAt g' x y = Some c' ∧
        cellType c' =
          if decide (y = (getRowCount g - 1)%N ∨ x = (getColCount g - 1)%N)
          then SOLID else cellType c.
Proof.
  intros Hwf Hc Hr.
  destruct (boundaryCollide_cells g Hwf Hc Hr) as (g' & Hg' & Hcells).
  exists g'. split; [done|]. intros x y Hx Hy.
  destruct (Hcells x y Hx Hy) as (c & Hcell & ->).
  eexists c, _. split; [done|]. split; [done|].
  destruct (boundary_effect_spec (getRowCount g) (getColCount g) x y c Hx Hy)
    as (_ & Htop & _ & Hright & Hother).
  case_decide as Hedge.
  - destruct Hedge as [Hy'|Hx']; [by apply Htop|by apply Hright].
  - apply Hother; tauto.
Qed.

(** ** The solver on the example states *)

Section Closed.

#[local] Existing Instances SpecGrid.impl SpecGrid.seed.

Lemma still_grid_wf : wf_grid still_grid.
Proof. split; [reflexivity|reflexivity..]. Defined.

Lemma wall_grid_run :
  pressureSolve frameTime wall_grid =
    Some (mkGrid two F32.one 2 1
            [mkCell F32.one (F32.opp frameTime) (F32.opp frameTime)
               F32.zero F32.zero FLUID;
             mkCell F32.one frameTime F32.zero F32.zero F32.zero SOLID]).
Proof. vm_compute. reflexivity. Defined.

(** C1: the code at a failing input.  On [shear_grid], all [FLUID] with
    divergence 1 in every cell that has both neighbours, [pressureSolve]
    does not reduce the sum of absolute divergences: with the step
    [advanceFrame] passes (1/30 s) the sum grows, over all cells and over
    the inner cells alike; with a step of 1 s it grows from 24 to 30; with
    a step of 0 the grid, and so the sum, is unchanged. *)
Theorem pressureSolve_shear_grid :
  Forall (λ c, cellType c = FLUID) (cells shear_grid) ∧
  sumAbsDivergence shear_grid (all_cells shear_grid) = F32.of_Z 24 ∧
  sumAbsDivergence shear_grid (inner_cells shear_grid) = F32.of_Z 9 ∧
  (∃ g', pressureSolve frameTime shear_grid = Some g' ∧
     F32.ltb (sumAbsDivergence shear_grid (all_cells shear_grid))
             (sumAbsDivergence g' (all_cells g')) = true ∧
     F32.ltb (sumAbsDivergence shear_grid (inner_cells shear_grid))
             (sumAbsDivergence g' (inner_cells g')) = true) ∧
  (∃ g', pressureSolve F32.one shear_grid = Some g' ∧
     sumAbsDivergence g' (all_cells g') = F32.of_Z 30 ∧
     sumAbsDivergence g' (inner_cells g') = F32.of_Z 15) ∧
  pressureSolve F32.zero shear_grid = Some shear_grid.
Proof.
  split; [vm_compute; repeat constructor|].
  split; [vm_compute; reflexivity|].
  split; [vm_compute; reflexivity|].
  split; [|split].
  - destruct (pressureSolve frameTime shear_grid) as [g'|] eqn:Hrun;
      [|vm_compute in Hrun; discriminate].
    exists g'. split; [done|]. vm_compute in Hrun.
    injection Hrun as <-. split; vm_compute; reflexivity.
  - destruct (pressureSolve F32.one shear_grid) as [g'|] eqn:Hrun;
      [|vm_compute in Hrun; discriminate].
    exists g'. split; [done|]. vm_compute in Hrun.
    injection Hrun as <-. split; vm_compute; reflexivity.
  - vm_compute. reflexivity.
Qed.

(** C3: the code at two failing inputs.  On the grid 2 wide and 4 high, at
    rest, the X-face sample at [(0, 2.5)] is not moved by the backtrace, yet
    [advectVelocity] samples the field at [(2, 2.5)]: the second test sees
    [y > width] and overwrites [x].  On [gust_grid] the backtrace of the
    X-face sample at [(3, 0.5)] by the CFL step [2/64] ends at [(5, 0.5)],
    beyond the width 4, and is sampled there unclamped.  A clamp of each
    axis by itself gives [(0, 2.5)] and [(4, 0.5)]. *)
Theorem advectSource_clamp_slip :
  backtrace frameTime tall_grid (mkVector2 F32.zero two_and_half)
    = mkVector2 F32.zero two_and_half ∧
  advectSource frameTime tall_grid F32.zero two_and_half
    = mkVector2 two two_and_half ∧
  clampIndependent tall_grid
      (backtrace frameTime tall_grid (mkVector2 F32.zero two_and_half))
    = mkVector2 F32.zero two_and_half ∧
  advectSource gust_step gust_grid (F32.of_Z 3) F32.half
    = mkVector2 (F32.of_Z 5) F32.half ∧
  F32.gtb (F32.of_Z 5) (getWidth gust_grid) = true ∧
  clampIndependent gust_grid
      (backtrace gust_step gust_grid (mkVector2 (F32.of_Z 3) F32.half))
    = mkVector2 four F32.half.
Proof. repeat split; vm_compute; reflexivity. Qed.

(** C4: a cell that is not [FLUID] and whose velocity [pressureSolve]
    changes.  The [SOLID] cell of [wall_grid] starts at rest and ends with
    the X velocity [1/30]: the [FLUID] cell before it pushed its correction
    into the face they share. *)
Lemma pressureSolve_changes_solid_cell :
  ∃ g' c',
    pressureSolve frameTime wall_grid = Some g' ∧
    cellAt wall_grid 1 0 = Some solid_cell ∧ cellType solid_cell ≠ FLUID ∧
    cellAt g' 1 0 = Some c' ∧ vel c' X ≠ vel solid_cell X.
Proof.
  eexists _, _. split; [exact wall_grid_run|].
  repeat split; [done|vm_compute; discriminate].
Qed.

Lemma wall_grid_wf : wf_grid wall_grid.
Proof. split; [reflexivity|reflexivity..]. Defined.

Lemma pressureSolve_nonfluid_cell_witness :
  ∃ g' c',
    pressureSolve frameTime wall_grid = Some g' ∧ cellAt g' 1 0 = Some c' ∧
    pressure c' = F32.one ∧ cellType c' = SOLID ∧
    (∀ d, stagedVel c' d = F32.zero) ∧
    (∀ d, vel c' d = match d with
                     | X => F32.add F32.zero (F32.mul frameTime F32.one)
                     | Y => F32.zero
                     end).
Proof.
  destruct (pressureSolve_nonfluid_cell frameTime wall_grid 1 0 solid_cell
              wall_grid_wf) as (g' & c' & Hrun & Hc' & Hp & Ht & Hs & Hv);
    [reflexivity|discriminate|].
  exists g', c'. split; [exact Hrun|]. split; [exact Hc'|].
  split; [exact Hp|]. split; [exact Ht|].
  split; [intros []; apply Hs|]. intros []; apply Hv.
Defined.

Lemma boundaryCollide_zeroes_edge_faces_witness :
  ∃ g', boundaryCollide still_grid = Some g' ∧
    ∀ x y, (x < 4)%N → (y < 4)%N →
      ∃ c, cellAt g' x y = Some c ∧
        (y = 0%N → vel c Y = F32.zero) ∧
        (y = 3%N → vel c X = F32.zero ∧ vel c Y = F32.zero) ∧
        (x = 0%N → vel c X = F32.zero) ∧
        (x = 3%N → vel c X = F32.zero ∧ vel c Y = F32.zero).
Proof.
  apply (boundaryCollide_zeroes_edge_faces still_grid still_grid_wf);
    reflexivity.
Defined.

(** C5: a boundary cell that [boundaryCollide] leaves [FLUID].  The cell
    [(0, 0)] of [still_grid] lies in the bottom row and in the left column. *)
Lemma boundaryCollide_leaves_corner_fluid :
  ∃ g' c', boundaryCollide still_grid = Some g' ∧
    cellAt g' 0 0 = Some c' ∧ cellType c' = FLUID ∧ cellType c' ≠ SOLID.
Proof.
  destruct (boundaryCollide still_grid) as [g'|] eqn:Hrun;
    [|vm_compute in Hrun; discriminate].
  vm_compute in Hrun. injection Hrun as <-.
  eexists _, _. split; [reflexivity|]. split; [reflexivity|].
  split; [reflexivity|discriminate].
Qed.

Lemma boundaryCollide_marks_top_and_right_witness :
  ∃ g', boundaryCollide still_grid = Some g' ∧
    ∀ x y, (x < 4)%N → (y < 4)%N →
      ∃ c c', cellAt still_grid x y = Some c ∧ cellAt g' x y = Some c' ∧
        cellType c' = if decide (y = 3%N ∨ x = 3%N) then SOLID else cellType c.
Proof.
  apply (boundaryCollide_marks_top_and_right still_grid still_grid_wf);
    reflexivity.
Defined.

Lemma still_solver_step :
  is_Some (advanceTimeStep 6 frameTime still_solver).
Proof. vm_compute. eexists. reflexivity. Defined.

(** The division of line 84 at work.  On the solver at rest it divides by
    the magnitude [+0]; the trace of the call holds that sub-step, with the
    quotient [+infinity]. *)
Lemma advanceFrame_divides_by_zero :
  ∃ s' trace,
    advanceFrame_trace 2 6 still_solver = Some (s', trace) ∧
    trace = [mkSubStep F32.zero F32.infinity frameTime] ∧
    ¬ division_guarded trace.
Proof.
  destruct (advanceFrame_trace 2 6 still_solver) as [[s' trace]|] eqn:Hrun;
    [|vm_compute in Hrun; discriminate].
  exists s', trace. split; [done|]. vm_compute in Hrun.
  injection Hrun as <- <-. split; [reflexivity|].
  intros Hg. apply Forall_cons_1 in Hg as [Hg _]. discriminate.
Qed.


(** C8: a construction with width 0 and height 0 that yields a solver. *)
Lemma FluidSolver_new_accepts_zero_size :
  FluidSolver_new 1 F32.zero F32.zero =
    Some (mkFluidSolver F32.zero F32.zero empty_grid false []).
Proof. vm_compute. reflexivity. Qed.

Lemma FluidSolver_new_nonpositive_witness :
  (∀ fuel s, FluidSolver_new fuel F32.zero F32.zero = Some s →
     s = mkFluidSolver F32.zero F32.zero empty_grid false []) ∧
  (F32.leb F32.zero F32.zero = true →
     ∀ fuel, FluidSolver_new (S fuel) F32.zero F32.zero =
       Some (mkFluidSolver F32.zero F32.zero empty_grid false [])).
Proof.
  apply (FluidSolver_new_nonpositive F32.zero F32.zero empty_grid);
    [left; reflexivity|reflexivity].
Defined.

Lemma advanceTimeStep_preserves_pressure_witness :
  ∃ s', advanceTimeStep 6 frameTime still_solver = Some s' ∧
    shape (_grid s') = shape (_grid still_solver) ∧
    pressure <$> cells (_grid s') = pressure <$> cells (_grid still_solver) ∧
    (∀ x y, pressure <$> cellAt (_grid s') x y
            = pressure <$> cellAt (_grid still_solver) x y) ∧
    (∀ g g', pressureSolve frameTime g = Some g' →
       pressure <$> cells g' = pressure <$> cells g).
Proof.
  destruct still_solver_step as [s' Hs']. exists s'. split; [exact Hs'|].
  exact (advanceTimeStep_preserves_pressure 6 frameTime still_solver s' Hs').
Defined.

Lemma advanceFrame_ready_noop_witness :
  advanceFrame_trace 1 0 (set_frameReady true still_solver)
    = Some (set_frameReady true still_solver, []) ∧
  advanceFrame 1 0 (set_frameReady true still_solver)
    = Some (set_frameReady true still_solver).
Proof.
  apply (advanceFrame_ready_noop 0 0 (set_frameReady true still_solver)).
  reflexivity.
Defined.

End Closed.

(** * Further properties of the solver *)

(** ** The frame loop *)

Section Frames.

Context {grid_impl : GridImpl} {seed_field : SeedField}.

(** What a sub-step leaves alone in the solver, besides the flag. *)
Lemma advanceTimeStep_solver gas dt s s' :
  advanceTimeStep gas dt s = Some s' →
  _width s' = _width s ∧ _height s' = _height s ∧
  length (_particles s') = length (_particles s) ∧
  shape (_grid s') = shape (_grid s).
Proof.
  unfold advanceTimeStep. intros H.
  apply bind_Some in H as (g1 & H1 & H).
  apply bind_Some in H as (g2 & H2 & H).
  apply bind_Some in H as (g3 & H3 & H).
  apply bind_Some in H as (g4 & H4 & H). simplify_eq. simpl.
  apply (advectVelocity_keeps pressure) in H1 as [E1 _]; [|by intros []|done].
  apply (applyGlobalVelocity_keeps pressure) in H2 as [E2 _]; [|by intros []].
  apply (pressureSolve_keeps pressure) in H3 as [E3 _]; [|by intros []].
  apply (boundaryCollide_keeps pressure) in H4 as [E4 _]; [|by intros []|done].
  rewrite length_fmap. repeat split; congruence.
Qed.

(** A property of the solver that every sub-step keeps, and that setting the
    flag keeps, holds when the loop returns. *)
Lemma advanceFrame_loop_invariant (P : FluidSolver → Prop) :
  (∀ gas dt s s', P s → advanceTimeStep gas dt s = Some s' → P s') →
  (∀ s, P s → P (set_frameReady true s)) →
  ∀ fuel gas frameTimeSec s trace s' trace',
    P s → advanceFrame_loop fuel gas frameTimeSec s trace = Some (s', trace') →
    P s'.
Proof.
  intros Hstep Hflag fuel.
  induction fuel as [|fuel IH]; intros gas ft s tr s' tr' HP Hrun; [done|].
  rewrite advanceFrame_loop_unfold in Hrun.
  destruct (_frameReady s); [by simplify_eq|].
  destruct (F32.leb ft F32.zero); [simplify_eq; by apply Hflag|].
  cbv zeta in Hrun. apply bind_Some in Hrun as (s1 & H1 & Hrun).
  eapply IH; [|exact Hrun]. by eapply Hstep.
Qed.

Lemma advanceFrame_Some fuel gas s s' :
  advanceFrame fuel gas s = Some s' ↔
  ∃ trace, advanceFrame_loop fuel gas frameTime s [] = Some (s', trace).
Proof.
  unfold advanceFrame, advanceFrame_trace. split.
  - intros ([s1 tr] & Hrun & Hfst)%fmap_Some. simpl in Hfst. subst. eauto.
  - intros [tr ->]. done.
Qed.

(** X1.  Whenever [advanceFrame] returns, the frame-ready flag is set,
    whatever the state it started from. *)
Theorem advanceFrame_sets_flag fuel gas s s' :
  advanceFrame fuel gas s = Some s' → _frameReady s' = true.
Proof.
  intros (tr & Hrun)%advanceFrame_Some. revert Hrun.
  generalize frameTime, (@nil SubStep). revert s.
  induction fuel as [|fuel IH]; intros s ft tr0 Hrun; [done|].
  rewrite advanceFrame_loop_unfold in Hrun.
  destruct (_frameReady s) eqn:Hready; [by simplify_eq|].
  destruct (F32.leb ft F32.zero); [by simplify_eq|].
  cbv zeta in Hrun. apply bind_Some in Hrun as (s1 & _ & Hrun).
  by eapply IH.
Qed.

Lemma advanceFrame_loop_spends fuel gas frameTimeSec s trace s' trace' :
  _frameReady s = false →
  advanceFrame_loop fuel gas frameTimeSec s trace = Some (s', trace') →
  ∃ new s_end, trace' = trace ++ new ∧
    stepsCapped frameTimeSec new ∧
    F32.leb (timeLeft frameTimeSec new) F32.zero = true ∧
    replay gas s new = Some (maxVelocityMagnitude <$> new, s_end) ∧
    s' = set_frameReady true s_end ∧
    (F32.leb frameTimeSec F32.zero = false → new ≠ []).
Proof.
  revert frameTimeSec s trace.
  induction fuel as [|fuel IH]; intros ft s tr Hready Hrun; [done|].
  rewrite advanceFrame_loop_unfold, Hready in Hrun.
  destruct (F32.leb ft F32.zero) eqn:Hft.
  - simplify_eq. exists [], s. rewrite app_nil_r. done.
  - cbv zeta in Hrun. apply bind_Some in Hrun as (s1 & H1 & Hrun).
    apply IH in Hrun as (new & s_end & -> & Hcap & Hleft & Hreplay & -> & _);
      [|by rewrite (advanceTimeStep_frameReady _ _ _ _ H1)].
    eexists (_ :: new), s_end. rewrite <- app_assoc. split; [done|].
    split; [by repeat split|]. split; [exact Hleft|].
    split; [|done].
    cbn [replay simTimeStepSec]. rewrite H1. cbn [mbind option_bind].
    rewrite Hreplay. done.
Qed.

(** X2.  A frame that is not ready is simulated to its end.  When
    [advanceFrame] returns it has run at least one sub-step; every sub-step
    was started with time left of the frame and took the CFL quotient of the
    magnitude it recorded, capped by the time then left; the frame time less
    all the steps taken is not positive.  The record is that of the
    simulation: the magnitudes recorded are those of [getMaxVelocity()] on
    the grid before each sub-step, and the solver returned is the one that
    [advanceTimeStep] with the recorded steps, one after the other, leads
    to, with the flag set. *)
Theorem advanceFrame_spends_frame fuel gas s s' trace :
  _frameReady s = false →
  advanceFrame_trace fuel gas s = Some (s', trace) →
  trace ≠ [] ∧ stepsCapped frameTime trace ∧
  F32.leb (timeLeft frameTime trace) F32.zero = true ∧
  ∃ s_end, replay gas s trace = Some (maxVelocityMagnitude <$> trace, s_end) ∧
    s' = set_frameReady true s_end.
Proof.
  intros Hready Hrun.
  apply advanceFrame_loop_spends in Hrun
    as (new & s_end & -> & Hcap & Hleft & Hreplay & -> & Hne); [|done].
  split; [apply Hne, frameTime_positive|].
  split; [done|]. split; [done|]. by exists s_end.
Qed.

(** X3.  [advanceFrame] moves particles and changes cells, and nothing
    else: the width, the height, the number of particles and the shape of
    the grid are those it was called with. *)
Theorem advanceFrame_keeps_sizes fuel gas s s' :
  advanceFrame fuel gas s = Some s' →
  getSimulationWidth s' = getSimulationWidth s ∧
  getSimulationHeight s' = getSimulationHeight s ∧
  length (_particles s') = length (_particles s) ∧
  shape (_grid s') = shape (_grid s).
Proof.
  intros (tr & Hrun)%advanceFrame_Some.
  eapply (advanceFrame_loop_invariant
            (λ t, _width t = _width s ∧ _height t = _height s ∧
                  length (_particles t) = length (_particles s) ∧
                  shape (_grid t) = shape (_grid s))); [| |done|exact Hrun].
  - intros gas' dt t t' (? & ? & ? & ?) (? & ? & ? & ?)%advanceTimeStep_solver.
    repeat split; congruence.
  - done.
Qed.

End Frames.

(** ** Sweeps over all cells *)

Lemma for_each_app {A S : Type} (body : A → S → option S) l1 l2 s :
  for_each body (l1 ++ l2) s = for_each body l1 s ≫= for_each body l2.
Proof.
  revert s. induction l1 as [|a l1 IH]; intros s; simpl; [done|].
  destruct (body a s); simpl; [apply IH|done].
Qed.

Lemma for_each_fmap {A B S : Type} (f : A → B) (body : B → S → option S) l s :
  for_each body (f <$> l) s = for_each (λ a, body (f a)) l s.
Proof.
  revert s. induction l as [|a l IH]; intros s; simpl; [done|].
  destruct (body (f a) s); simpl; [apply IH|done].
Qed.

Lemma for_each_ext {A S : Type} (body1 body2 : A → S → option S) l s :
  (∀ a t, body1 a t = body2 a t) → for_each body1 l s = for_each body2 l s.
Proof.
  intros Hext. revert s. induction l as [|a l IH]; intros s; simpl; [done|].
  rewrite Hext. destruct (body2 a s); simpl; [apply IH|done].
Qed.

Lemma set_cells_id g : set_cells g (cells g) = g.
Proof. by destruct g. Qed.

Lemma modifyIndex_compose f1 f2 i g :
  modifyIndex f1 i g ≫= modifyIndex f2 i = modifyIndex (λ c, f2 (f1 c)) i g.
Proof.
  unfold modifyIndex. destruct (cells g !! i) as [c|] eqn:Hc; simpl; [|done].
  rewrite list_lookup_insert_eq by (by eapply lookup_lt_Some). simpl.
  unfold set_cells. simpl. by rewrite list_insert_insert_eq.
Qed.

(** A loop that updates the cells [0 .. k-1] one after the other maps the
    update over the first [k] cells. *)
Lemma modifyIndex_sweep f k g :
  k ≤ length (cells g) →
  for_each (λ i, modifyIndex f i) (seq 0 k) g =
    Some (set_cells g ((f <$> take k (cells g)) ++ drop k (cells g))).
Proof.
  induction k as [|k IH]; intros Hk.
  - simpl. by rewrite drop_0, set_cells_id.
  - rewrite seq_S, for_each_app, IH by lia. simpl.
    destruct (lookup_lt_is_Some_2 (cells g) k) as [c Hc]; [lia|].
    unfold modifyIndex. cbn [cells set_cells].
    assert (length (f <$> take k (cells g)) = k) as Hlen
      by (rewrite length_fmap, length_take; lia).
    rewrite lookup_app_r by lia. rewrite Hlen, Nat.sub_diag.
    rewrite (drop_S _ _ _ Hc). simpl. f_equal. unfold set_cells. simpl.
    f_equal. rewrite insert_app_r_alt by lia.
    rewrite Hlen, Nat.sub_diag. simpl.
    rewrite (take_S_r _ _ _ Hc), fmap_app. simpl.
    by rewrite <- app_assoc.
Qed.

Lemma modifyIndex_sweep_all f g :
  wf_grid g →
  for_each (λ i, modifyIndex f (N.to_nat i)) (upto (cellCount g)) g =
    Some (set_cells g (f <$> cells g)).
Proof.
  intros Hwf. unfold upto. rewrite for_each_fmap.
  rewrite (for_each_ext _ (λ i, modifyIndex f i))
    by (intros; by rewrite Nat2N.id).
  rewrite cellCount_wf by done.
  rewrite modifyIndex_sweep by (rewrite (wf_length g Hwf); lia).
  rewrite <- (wf_length g Hwf), firstn_all, drop_all. by rewrite app_nil_r.
Qed.

Section Sweeps.

Context {grid_impl : GridImpl}.

(** X4.  On a well-formed grid [applyGlobalVelocity] returns, and the grid
    it returns is the one it was given with the velocity added to both
    velocity components of every cell; nothing else changes. *)
Theorem applyGlobalVelocity_all_cells velocity g :
  wf_grid g →
  applyGlobalVelocity velocity g =
    Some (set_cells g (pushCell velocity <$> cells g)).
Proof.
  intros Hwf. unfold applyGlobalVelocity.
  rewrite (for_each_ext _ (λ i, modifyIndex (pushCell velocity) (N.to_nat i)))
    by (intros i h; exact (modifyIndex_compose (add_vel X (vec_x velocity))
                             (add_vel Y (vec_y velocity)) (N.to_nat i) h)).
  by apply modifyIndex_sweep_all.
Qed.

(** X5.  When [advectVelocity] returns on a well-formed grid, every cell's
    velocity is its staged velocity: all staged values have been committed.
    Pressures and types are those of the grid it was given. *)
Theorem advectVelocity_commits fuel dt g g' :
  wf_grid g →
  advectVelocity fuel dt g = Some g' →
  Forall (λ c, ∀ d, vel c d = stagedVel c d) (cells g') ∧ keeps static g g'.
Proof.
  intros Hwf Hrun. split; [|by eapply advectVelocity_keeps; [intros []..|]].
  unfold advectVelocity in Hrun.
  apply bind_Some in Hrun as (g1 & H1 & Hrun).
  apply bind_Some in Hrun as (g2 & H2 & Hrun).
  assert (shape g2 = shape g) as Hshape.
  { assert (keeps pressure g g1) as [E1 _].
    { eapply float_for_keeps; [|exact H1]. intros v h h' Hv.
      eapply float_for_keeps; [|exact Hv]. intros w k k'.
      by apply advectFace_keeps; intros []. }
    assert (keeps pressure g1 g2) as [E2 _].
    { eapply float_for_keeps; [|exact H2]. intros v h h' Hv.
      eapply float_for_keeps; [|exact Hv]. intros w k k'.
      by apply advectFace_keeps; intros []. }
    congruence. }
  rewrite modifyIndex_sweep_all in Hrun by (by eapply wf_grid_shape).
  simplify_eq. simpl. apply Forall_fmap, Forall_true. by intros c [].
Qed.

End Sweeps.

(** ** The walls *)

Lemma cell_eq c1 c2 :
  pressure c1 = pressure c2 → vel_X c1 = vel_X c2 → vel_Y c1 = vel_Y c2 →
  stagedVel_X c1 = stagedVel_X c2 → stagedVel_Y c1 = stagedVel_Y c2 →
  cellType c1 = cellType c2 → c1 = c2.
Proof. destruct c1, c2. simpl. by intros -> -> -> -> -> ->. Qed.

(** Two grids of one shape that hold the same cell at every coordinate
    pair are the same grid. *)
Lemma grid_ext g g' :
  wf_grid g → shape g' = shape g →
  (∀ x y, cellAt g' x y = cellAt g x y) → g' = g.
Proof.
  intros Hwf Hshape Hcells.
  assert (cells g' = cells g) as Hl.
  { apply list_eq. intros i.
    destruct (decide (i < length (cells g))) as [Hi|Hi].
    - pose proof (wf_length g Hwf) as Hlen.
      assert (0 < getColCount g)%N as Hc by nia.
      set (x := (N.of_nat i mod getColCount g)%N).
      set (y := (N.of_nat i / getColCount g)%N).
      assert (x < getColCount g)%N as Hx by (apply N.mod_lt; lia).
      assert (N.of_nat i = y * getColCount g + x)%N as Hi'
        by (unfold x, y; rewrite N.mul_comm; apply N.div_mod; lia).
      assert (y < getRowCount g)%N as Hy by nia.
      assert (index g x y = Some i) as Hidx by (apply index_Some; lia).
      specialize (Hcells x y). unfold cellAt in Hcells.
      rewrite (index_shape _ _ _ _ Hshape), Hidx in Hcells. exact Hcells.
    - rewrite !lookup_ge_None_2; [done|lia|].
      unfold shape in Hshape. injection Hshape as _ _ _ _ ->. lia. }
  destruct g, g'. unfold shape in Hshape. simpl in *. by simplify_eq.
Qed.

(** The two loops of [boundaryCollide] on one cell, in closed form. *)
Lemma boundary_effect_cell rows cols x y c :
  (x < cols)%N → (y < rows)%N →
  loop_effect (boundary_row_effect (cols - 1)) (upto rows) x y
    (loop_effect (boundary_col_effect (rows - 1)) (upto cols) x y c)
  = boundaryCell rows cols x y c.
Proof.
  intros Hx Hy.
  destruct (boundary_effect_spec rows cols x y c Hx Hy)
    as (Hbottom & Htop & Hleft & Hright & Htype).
  set (c' := loop_effect _ _ _ _ _) in *.
  assert (∀ (B : Type) (proj : Cell → B),
            (∀ a d, proj (boundary_row_effect (cols - 1) a x y d) = proj d) →
            (∀ a d, proj (boundary_col_effect (rows - 1) a x y d) = proj d) →
            proj c' = proj c) as Hframe.
  { intros B proj Hr Hc. unfold c'.
    rewrite (loop_effect_frame proj) by (intros; apply Hr).
    apply (loop_effect_frame proj). intros; apply Hc. }
  unfold boundaryCell. apply cell_eq; simpl.
  - apply Hframe; intros; effect_cases.
  - case_decide as Hd.
    + destruct Hd as [?|[?|?]]; [by apply Htop|by apply Hleft|by apply Hright].
    + apply Hframe; intros; effect_cases.
  - case_decide as Hd.
    + destruct Hd as [?|[?|?]]; [by apply Hbottom|by apply Htop|by apply Hright].
    + apply Hframe; intros; effect_cases.
  - apply Hframe; intros; effect_cases.
  - apply Hframe; intros; effect_cases.
  - case_decide as Hd.
    + destruct Hd as [?|?]; [by apply Htop|by apply Hright].
    + apply Htype; tauto.
Qed.

Lemma boundaryCell_idempotent rows cols x y c :
  boundaryCell rows cols x y (boundaryCell rows cols x y c)
  = boundaryCell rows cols x y c.
Proof. unfold boundaryCell. simpl. repeat case_decide; done. Qed.

Lemma boundaryCollide_cellAt g g' :
  wf_grid g → boundaryCollide g = Some g' →
  shape g' = shape g ∧
  ∀ x y, cellAt g' x y =
         boundaryCell (getRowCount g) (getColCount g) x y <$> cellAt g x y.
Proof.
  intros Hwf Hrun. destruct (boundaryCollide_acts g g' Hrun) as [Hs Hacts].
  split; [done|]. intros x y. rewrite Hacts.
  destruct (cellAt g x y) as [c|] eqn:Hc; [|done]. simpl. f_equal.
  destruct (cellAt_Some_bounds g x y c Hc) as [Hx Hy].
  rewrite !u32_pred by (split; [lia|apply Hwf]).
  by apply boundary_effect_cell.
Qed.

(** X6.  On a well-formed grid with at least one cell [boundaryCollide]
    returns, and every cell of the grid it returns is the cell it was with
    [vel[X]] zeroed on the top row and the left and right columns, [vel[Y]]
    zeroed on the bottom and top rows and the right column, and the type
    [SOLID] on the top row and the right column.  Pressures and staged
    velocities are untouched, and so is every cell off the four edges. *)
Theorem boundaryCollide_exact g :
  wf_grid g → (0 < getColCount g)%N → (0 < getRowCount g)%N →
  ∃ g', boundaryCollide g = Some g' ∧ shape g' = shape g ∧
    (∀ x y, cellAt g' x y =
            boundaryCell (getRowCount g) (getColCount g) x y <$> cellAt g x y) ∧
    (∀ x y, (0 < x)%N → (x + 1 < getColCount g)%N →
            (0 < y)%N → (y + 1 < getRowCount g)%N →
            cellAt g' x y = cellAt g x y).
Proof.
  intros Hwf Hc Hr.
  destruct (boundaryCollide_total g Hwf Hc Hr) as [g' Hrun].
  destruct (boundaryCollide_cellAt g g' Hwf Hrun) as [Hs Hcells].
  exists g'. repeat split; [done..|].
  intros x y Hx0 Hx1 Hy0 Hy1. rewrite Hcells.
  destruct (cellAt g x y) as [c|]; [|done]. simpl. f_equal.
  unfold boundaryCell. rewrite !decide_False by lia. by destruct c.
Qed.

(** X7.  [boundaryCollide] is idempotent: run on the grid it returned, it
    returns that grid. *)
Theorem boundaryCollide_idempotent g g' :
  wf_grid g → boundaryCollide g = Some g' → boundaryCollide g' = Some g'.
Proof.
  intros Hwf Hrun.
  destruct (boundaryCollide_cellAt g g' Hwf Hrun) as [Hs Hcells].
  pose proof (wf_grid_shape g g' Hs Hwf) as Hwf'.
  assert (getColCount g' = getColCount g ∧ getRowCount g' = getRowCount g)
    as [Ec Er] by (unfold shape in Hs; by injection Hs as _ _ -> -> _).
  assert (is_Some (boundaryCollide g')) as [g'' Hrun'].
  { destruct (decide (0 < getColCount g')%N) as [Hc|Hc];
      [destruct (decide (0 < getRowCount g')%N) as [Hr|Hr]|].
    - by apply boundaryCollide_total.
    - unfold boundaryCollide in Hrun. cbv zeta in Hrun.
      apply bind_Some in Hrun as (g1 & H1 & _). exfalso.
      assert (getColCount g ≠ 0%N) as Hne by lia.
      destruct (upto (getColCount g)) as [|col l] eqn:Hupto.
      { apply (f_equal length) in Hupto. unfold upto in Hupto.
        rewrite length_fmap, length_seq in Hupto. simpl in Hupto. lia. }
      simpl in H1. apply bind_Some in H1 as (h & Hh & _).
      apply bind_Some in Hh as (h1 & Hh1 & _).
      unfold modifyAt in Hh1. apply bind_Some in Hh1 as (i & Hi & _).
      apply index_Some in Hi. lia.
    - assert (getColCount g' = 0%N) as Hz by lia.
      unfold boundaryCollide. cbv zeta. rewrite Hz. simpl.
      pose proof (wf_length g' Hwf') as Hlen. rewrite Hz, N.mul_0_r in Hlen.
      destruct (upto (getRowCount g')) as [|row l] eqn:Hupto; [by eexists|].
      exfalso.
      unfold boundaryCollide in Hrun. cbv zeta in Hrun.
      rewrite <- Ec, Hz in Hrun. simpl in Hrun. rewrite <- Er, Hupto in Hrun.
      simpl in Hrun. apply bind_Some in Hrun as (h & Hh & _).
      apply bind_Some in Hh as (h1 & Hh1 & _).
      unfold modifyAt in Hh1. apply bind_Some in Hh1 as (i & Hi & _).
      apply index_Some in Hi. lia. }
  rewrite Hrun'. f_equal.
  destruct (boundaryCollide_cellAt g' g'' Hwf' Hrun') as [Hs' Hcells'].
  apply grid_ext; [done..|]. intros x y.
  rewrite Hcells', Hcells, Ec, Er.
  destruct (cellAt g x y); [|done]. simpl.
  by rewrite boundaryCell_idempotent.
Qed.

Lemma boundaryCollide_walls g g' :
  wf_grid g → boundaryCollide g = Some g' → wallsEnforced g'.
Proof.
  intros Hwf Hrun.
  destruct (boundaryCollide_cellAt g g' Hwf Hrun) as [Hs Hcells].
  assert (getColCount g' = getColCount g ∧ getRowCount g' = getRowCount g)
    as [Ec Er] by (unfold shape in Hs; by injection Hs as _ _ -> -> _).
  intros x y c' Hc'. rewrite Hcells in Hc'.
  destruct (cellAt g x y) as [c|]; [|done]. simpl in Hc'. simplify_eq.
  rewrite Ec, Er. unfold boundaryCell. simpl.
  repeat split; intros; subst; rewrite decide_True; auto.
Qed.

(** ** pressureSolve on every cell *)

Lemma loop_effect_app {A : Type} (fn : A → N → N → Cell → Cell) l1 l2 x y c :
  loop_effect fn (l1 ++ l2) x y c
  = loop_effect fn l2 x y (loop_effect fn l1 x y c).
Proof. unfold loop_effect. by rewrite foldl_app. Qed.

(** The counters below [n] are those below [k], then [k], then greater
    ones. *)
Lemma upto_split n k :
  (k < n)%N →
  ∃ tail, upto n = upto k ++ k :: tail ∧ ∀ a, a ∈ tail → (k < a)%N.
Proof.
  intros Hk. unfold upto.
  replace (N.to_nat n) with (N.to_nat k + S (N.to_nat n - S (N.to_nat k)))
    by lia.
  rewrite seq_app, fmap_app. simpl. rewrite N2Nat.id.
  eexists. split; [done|].
  intros a (i & -> & Hi%elem_of_seq)%list_elem_of_fmap. lia.
Qed.

(** A loop over the counters below [n] in which only the iterations [k-1]
    and [k] change the field [proj]: the loop changes it as [k-1] does, then
    as [k] does. *)
Lemma loop_effect_upto_pair {B : Type} (proj : Cell → B)
    (fn : N → N → N → Cell → Cell) (φ1 φ2 : B → B) n k x y c :
  (k < n)%N →
  (∀ c, proj (fn k x y c) = φ2 (proj c)) →
  ((0 < k)%N → ∀ c, proj (fn (k - 1)%N x y c) = φ1 (proj c)) →
  (k = 0%N → ∀ v, φ1 v = v) →
  (∀ a c, a ≠ k → (a + 1)%N ≠ k → proj (fn a x y c) = proj c) →
  proj (loop_effect fn (upto n) x y c) = φ2 (φ1 (proj c)).
Proof.
  intros Hk Hself Hbefore Hfirst Hother.
  destruct (upto_split n k Hk) as (tail & -> & Htail).
  rewrite loop_effect_app.
  change (loop_effect fn (k :: tail) x y ?d)
    with (loop_effect fn tail x y (fn k x y d)).
  rewrite (loop_effect_frame proj)
    by (intros a d Ha%Htail; apply Hother; lia).
  rewrite Hself. f_equal.
  destruct (decide (k = 0%N)) as [->|Hk0].
  - by rewrite Hfirst.
  - apply (loop_effect_proj_single proj _ φ1 _ _ _ _ (k - 1)%N).
    + apply NoDup_upto.
    + apply elem_of_upto. lia.
    + apply Hbefore. lia.
    + intros a d Ha%elem_of_upto Hne. apply Hother; lia.
Qed.

(** Each velocity component of a cell after the first loop nest of
    [pressureSolve]. *)
Lemma pressure_loops_vel dt g x y c d :
  cellAt g x y = Some c →
  vel (loop_effect
         (λ x', loop_effect (pressure_effect dt g x') (upto (getRowCount g)))
         (upto (getColCount g)) x y c) d
  = pressureSolvedVel dt g x y d (vel c d).
Proof.
  intros Hcell.
  destruct (cellAt_Some_bounds g x y c Hcell) as [Hx Hy].
  pose proof (proj2 (elem_of_upto _ _) Hx) as Hxin.
  pose proof (proj2 (elem_of_upto _ _) Hy) as Hyin.
  unfold pressureSolvedVel, pressureFrom. destruct d; unfold vel.
  - rewrite (loop_effect_upto_pair vel_X
               (λ x', loop_effect (pressure_effect dt g x') (upto (getRowCount g)))
               (λ v, match (if decide (x = 0%N) then None
                            else pressureVelAt dt g (x - 1) y) with
                     | Some pv => F32.add v pv | None => v end)
               (λ v, match pressureVelAt dt g x y with
                     | Some pv => F32.sub v pv | None => v end)
               (getColCount g) x x y c); [done|done|..].
    + intros e.
      apply (loop_effect_proj_single vel_X (pressure_effect dt g x)
               (λ v, match pressureVelAt dt g x y with
                     | Some pv => F32.sub v pv | None => v end)
               (upto (getRowCount g)) x y e y);
        [apply NoDup_upto|done|..].
      * intros f. rewrite pressure_effect_vel_X.
        destruct (pressureVelAt dt g x y); [|done]. pick_face.
      * intros y' f _ Hne. rewrite pressure_effect_vel_X.
        destruct (pressureVelAt dt g x y'); [|done]. pick_face.
    + intros Hx0 e. rewrite decide_False by lia.
      apply (loop_effect_proj_single vel_X (pressure_effect dt g (x - 1))
               (λ v, match pressureVelAt dt g (x - 1) y with
                     | Some pv => F32.add v pv | None => v end)
               (upto (getRowCount g)) x y e y);
        [apply NoDup_upto|done|..].
      * intros f. rewrite pressure_effect_vel_X.
        destruct (pressureVelAt dt g (x - 1) y); [|done]. pick_face.
      * intros y' f _ Hne. rewrite pressure_effect_vel_X.
        destruct (pressureVelAt dt g (x - 1) y'); [|done]. pick_face.
    + intros -> v. done.
    + intros x' e Hne1 Hne2. apply (loop_effect_frame vel_X). intros y' f _.
      rewrite pressure_effect_vel_X.
      destruct (pressureVelAt dt g x' y'); [|done]. pick_face.
  - rewrite (loop_effect_proj_single vel_Y
               (λ x', loop_effect (pressure_effect dt g x') (upto (getRowCount g)))
               (λ v, match pressureVelAt dt g x y with
                     | Some pv =>
                         F32.sub match (if decide (y = 0%N) then None
                                        else pressureVelAt dt g x (y - 1)) with
                                 | Some pv' => F32.add v pv' | None => v end pv
                     | None =>
                         match (if decide (y = 0%N) then None
                                else pressureVelAt dt g x (y - 1)) with
                         | Some pv' => F32.add v pv' | None => v end
                     end)
               (upto (getColCount g)) x y c x); [done|apply NoDup_upto|done|..].
    + intros e.
      rewrite (loop_effect_upto_pair vel_Y (pressure_effect dt g x)
                 (λ v, match (if decide (y = 0%N) then None
                              else pressureVelAt dt g x (y - 1)) with
                       | Some pv => F32.add v pv | None => v end)
                 (λ v, match pressureVelAt dt g x y with
                       | Some pv => F32.sub v pv | None => v end)
                 (getRowCount g) y x y e); [done|done|..].
      * intros f. rewrite pressure_effect_vel_Y.
        destruct (pressureVelAt dt g x y); [|done]. pick_face.
      * intros Hy0 f. rewrite decide_False by lia.
        rewrite pressure_effect_vel_Y.
        destruct (pressureVelAt dt g x (y - 1)); [|done]. pick_face.
      * intros -> v. done.
      * intros y' f Hne1 Hne2. rewrite pressure_effect_vel_Y.
        destruct (pressureVelAt dt g x y'); [|done]. pick_face.
    + intros x' e _ Hne. apply (loop_effect_frame vel_Y). intros y' f _.
      rewrite pressure_effect_vel_Y.
      destruct (pressureVelAt dt g x' y'); [|done]. pick_face.
Qed.

Section PressureSolveAll.

Context {grid_impl : GridImpl}.

Lemma pressureSolve_cellAt dt g g' x y c :
  pressureSolve dt g = Some g' → cellAt g x y = Some c →
  ∃ c', cellAt g' x y = Some c' ∧
    pressure c' = pressure c ∧ cellType c' = cellType c ∧
    (∀ d, stagedVel c' d = stagedVel c d) ∧
    (∀ d, vel c' d = pressureSolvedVel dt g x y d (vel c d)).
Proof.
  intros Hrun Hcell.
  destruct (pressureSolve_acts dt g g' Hrun) as [_ Hacts].
  eexists. split; [by rewrite Hacts, Hcell|].
  assert (∀ (B : Type) (proj : Cell → B),
            (∀ d v c, proj (set_vel d v c) = proj c) →
            proj (loop_effect
                    (λ x', loop_effect (pressure_effect dt g x') (upto (getRowCount g)))
                    (upto (getColCount g)) x y c) = proj c) as Hframe.
  { intros B proj Hv. apply (loop_effect_frame proj). intros x' d _.
    apply (loop_effect_frame proj). intros y' e _.
    by apply pressure_effect_frame. }
  split; [by apply (Hframe _ pressure); intros []|].
  split; [by apply (Hframe _ cellType); intros []|].
  split.
  - intros []; [by apply (Hframe _ stagedVel_X); intros []
               |by apply (Hframe _ stagedVel_Y); intros []].
  - intros d. by apply pressure_loops_vel.
Qed.

(** X8.  On a well-formed grid [pressureSolve] returns a grid of the same
    shape in which every cell keeps its pressure, type and staged velocity,
    and each velocity component is the old one, plus the correction
    [timeStepSec * pressure] of the cell before it along that axis if that
    cell is [FLUID], minus the cell's own correction if the cell is [FLUID],
    in that order. *)
Theorem pressureSolve_exact dt g :
  wf_grid g →
  ∃ g', pressureSolve dt g = Some g' ∧ shape g' = shape g ∧
    ∀ x y c, cellAt g x y = Some c →
      ∃ c', cellAt g' x y = Some c' ∧
        pressure c' = pressure c ∧ cellType c' = cellType c ∧
        (∀ d, stagedVel c' d = stagedVel c d) ∧
        (∀ d, vel c' d = pressureSolvedVel dt g x y d (vel c d)).
Proof.
  intros Hwf. destruct (pressureSolve_total dt g Hwf) as [g' Hrun].
  exists g'. split; [done|]. split.
  - by apply (pressureSolve_keeps pressure) in Hrun as [? _]; [|intros []].
  - intros x y c. by apply pressureSolve_cellAt.
Qed.

(** X9.  On a well-formed grid without a [FLUID] cell [pressureSolve]
    changes nothing. *)
Theorem pressureSolve_without_fluid dt g :
  wf_grid g → Forall (λ c, cellType c ≠ FLUID) (cells g) →
  pressureSolve dt g = Some g.
Proof.
  intros Hwf Hdry. destruct (pressureSolve_total dt g Hwf) as [g' Hrun].
  rewrite Hrun. f_equal.
  assert (∀ x y, pressureVelAt dt g x y = None) as Hnone.
  { intros x y. unfold pressureVelAt, cellAt.
    destruct (index g x y) as [i|]; simpl; [|done].
    destruct (cells g !! i) as [c|] eqn:Hc; simpl; [|done].
    rewrite decide_False; [done|].
    by apply (Forall_lookup_1 _ _ _ _ Hdry Hc). }
  apply grid_ext; [done|..].
  - by apply (pressureSolve_keeps pressure) in Hrun as [? _]; [|intros []].
  - intros x y. destruct (cellAt g x y) as [c|] eqn:Hcell.
    + destruct (pressureSolve_cellAt dt g g' x y c Hrun Hcell)
        as (c' & -> & Hp & Ht & Hs & Hv).
      f_equal. apply cell_eq; try done.
      * etrans; [apply (Hv X)|]. unfold pressureSolvedVel, pressureFrom.
        rewrite !Hnone. by case_decide.
      * etrans; [apply (Hv Y)|]. unfold pressureSolvedVel, pressureFrom.
        rewrite !Hnone. by case_decide.
      * apply (Hs X).
      * apply (Hs Y).
    + destruct (pressureSolve_acts dt g g' Hrun) as [_ Hacts].
      by rewrite Hacts, Hcell.
Qed.

End PressureSolveAll.

(** ** A whole frame *)

Section WholeFrame.

Context {grid_impl : GridImpl} {seed_field : SeedField}.

Lemma shape_counts g g' :
  shape g' = shape g →
  getColCount g' = getColCount g ∧ getRowCount g' = getRowCount g.
Proof. unfold shape. by intros [= _ _ -> -> _]. Qed.

Lemma settles_trans g1 g2 g3 :
  shape g2 = shape g1 → settles g1 g2 → settles g2 g3 → settles g1 g3.
Proof.
  intros [Ec Er]%shape_counts H12 H23 x y c Hc.
  destruct (H12 x y c Hc) as (c2 & Hc2 & Hp2 & Ht2).
  destruct (H23 x y c2 Hc2) as (c3 & Hc3 & Hp3 & Ht3).
  exists c3. split; [done|]. split; [congruence|].
  rewrite Ht3, Ht2. unfold sealedType. rewrite Ec, Er. by case_decide.
Qed.

(** What one sub-step makes of the grid. *)
Lemma advanceTimeStep_grid gas dt s s' :
  wf_grid (_grid s) → advanceTimeStep gas dt s = Some s' →
  shape (_grid s') = shape (_grid s) ∧ wallsEnforced (_grid s') ∧
  settles (_grid s) (_grid s').
Proof.
  intros Hwf Hrun.
  pose proof (advanceTimeStep_solver _ _ _ _ Hrun) as (_ & _ & _ & Hshape).
  split; [done|].
  unfold advanceTimeStep in Hrun.
  apply bind_Some in Hrun as (g1 & H1 & Hrun).
  apply bind_Some in Hrun as (g2 & H2 & Hrun).
  apply bind_Some in Hrun as (g3 & H3 & Hrun).
  apply bind_Some in Hrun as (g4 & H4 & Hrun). simplify_eq. simpl.
  apply (advectVelocity_keeps static) in H1; [|by intros []|done].
  apply (applyGlobalVelocity_keeps static) in H2; [|by intros []].
  apply (pressureSolve_keeps static) in H3; [|by intros []].
  pose proof (keeps_trans _ _ _ _ (keeps_trans _ _ _ _ H1 H2) H3) as Hk.
  assert (wf_grid g3) as Hwf3 by (eapply wf_grid_shape; [apply Hk|done]).
  split; [by eapply boundaryCollide_walls|].
  destruct (boundaryCollide_cellAt g3 g4 Hwf3 H4) as [_ Hcells].
  destruct (shape_counts _ _ (proj1 Hk)) as [Ec Er].
  intros x y c Hc.
  pose proof (keeps_cellAt static _ _ x y Hk) as Hst.
  rewrite Hc in Hst. rewrite Hcells.
  destruct (cellAt g3 x y) as [c3|]; [|done].
  simpl in Hst. injection Hst as Hp Ht.
  eexists. split; [done|]. simpl. split; [done|].
  unfold sealedType. rewrite <- Ec, <- Er, Ht. done.
Qed.

(** What the sub-steps of a frame make of the grid, once one of them has
    run. *)
Lemma advanceFrame_loop_grid s0 fuel gas frameTimeSec s trace s' trace' :
  wf_grid (_grid s0) →
  shape (_grid s) = shape (_grid s0) ∧ wallsEnforced (_grid s) ∧
    settles (_grid s0) (_grid s) →
  advanceFrame_loop fuel gas frameTimeSec s trace = Some (s', trace') →
  shape (_grid s') = shape (_grid s0) ∧ wallsEnforced (_grid s') ∧
    settles (_grid s0) (_grid s').
Proof.
  intros Hwf0 Hs Hrun.
  eapply (advanceFrame_loop_invariant
            (λ t, shape (_grid t) = shape (_grid s0) ∧
                  wallsEnforced (_grid t) ∧ settles (_grid s0) (_grid t)));
    [| |exact Hs|exact Hrun].
  - intros gas' dt t t' (Hsh & _ & Hset) Hstep.
    apply advanceTimeStep_grid in Hstep as (Hsh' & Hwalls' & Hset');
      [|by eapply wf_grid_shape].
    split; [congruence|]. split; [done|].
    by eapply settles_trans.
  - done.
Qed.

Lemma advanceFrame_grid fuel gas s s' :
  wf_grid (_grid s) → _frameReady s = false →
  advanceFrame fuel gas s = Some s' →
  shape (_grid s') = shape (_grid s) ∧ wallsEnforced (_grid s') ∧
    settles (_grid s) (_grid s').
Proof.
  intros Hwf Hready (tr & Hrun)%advanceFrame_Some.
  destruct fuel as [|fuel]; [done|].
  rewrite advanceFrame_loop_unfold, Hready, frameTime_positive in Hrun.
  cbv zeta in Hrun. apply bind_Some in Hrun as (s1 & H1 & Hrun).
  eapply advanceFrame_loop_grid; [done| |exact Hrun].
  by eapply advanceTimeStep_grid.
Qed.

(** X10.  A frame simulated from a well-formed grid ends with the walls in
    place: the vertical velocity is zero on the bottom row, the horizontal
    one in the left column, and every cell of the top row and of the right
    column is [SOLID] with both components zero. *)
Theorem advanceFrame_enforces_walls fuel gas s s' :
  wf_grid (_grid s) → _frameReady s = false →
  advanceFrame fuel gas s = Some s' →
  wallsEnforced (_grid s').
Proof. intros Hwf Hready Hrun. by eapply advanceFrame_grid. Qed.

(** X11.  Over a whole frame every cell keeps its pressure, and keeps its
    type unless it lies on the top row or in the right column, where it ends
    [SOLID]. *)
Theorem advanceFrame_settles fuel gas s s' :
  wf_grid (_grid s) → _frameReady s = false →
  advanceFrame fuel gas s = Some s' →
  ∀ x y c, cellAt (_grid s) x y = Some c →
    ∃ c', cellAt (_grid s') x y = Some c' ∧ pressure c' = pressure c ∧
      cellType c' = sealedType (_grid s) x y (cellType c).
Proof. intros Hwf Hready Hrun. by eapply advanceFrame_grid. Qed.

End WholeFrame.

(** ** reset and the constructor *)

Section Reset.

Context {grid_impl : GridImpl} {seed_field : SeedField}.

Lemma tracers_length x y : length (tracers x y) = 16.
Proof. reflexivity. Qed.

Lemma seededCell_again x y x' y' c :
  seededCell x y (seededCell x' y' c) = seededCell x y c.
Proof. done. Qed.

Lemma reset_cell_seeded g0 x y st st' :
  seeded g0 st.1 → reset_cell x y st = Some st' →
  seeded g0 st'.1 ∧ st'.2 = st.2 ++ tracers x y.
Proof.
  intros [Hshape Hcells] Hrun. unfold reset_cell in Hrun.
  apply bind_Some in Hrun as (xi & Hxi & Hrun).
  apply bind_Some in Hrun as (yi & Hyi & Hrun).
  apply bind_Some in Hrun as (g1 & H1 & Hrun).
  apply bind_Some in Hrun as (g2 & H2 & Hrun).
  apply bind_Some in Hrun as (g3 & H3 & Hrun).
  apply bind_Some in Hrun as (g4 & H4 & Hrun). injection Hrun as <-. simpl.
  split; [|done].
  apply modifyAt_acts in H1 as [S1 A1]. apply modifyAt_acts in H2 as [S2 A2].
  apply modifyAt_acts in H3 as [S3 A3]. apply modifyAt_acts in H4 as [S4 A4].
  split; [by rewrite S4, S3, S2, S1|].
  intros a b c' Hc'. rewrite A4, A3, A2, A1 in Hc'.
  destruct (cellAt st.1 a b) as [c|] eqn:Hc; [|done].
  destruct (Hcells a b c Hc) as (c0 & Hc0 & Hrel).
  exists c0. split; [done|].
  simpl in Hc'. injection Hc' as <-. unfold at_cell.
  destruct (decide (a = xi ∧ b = yi)) as [[-> ->]|Hne]; [|done].
  right. exists x, y. split; [done|]. split; [done|].
  destruct Hrel as [->|(x' & y' & _ & _ & ->)]; by destruct c0.
Qed.

Lemma reset_loops fuel width height g0 st' :
  float_for fuel F32.zero height
    (λ y, float_for fuel F32.zero width (λ x, reset_cell x y)) (g0, [])
  = Some st' →
  seeded g0 st'.1 ∧ ∃ k, length st'.2 = 16 * k.
Proof.
  apply (float_for_invariant (λ st, seeded g0 st.1 ∧ ∃ k, length st.2 = 16 * k)).
  - intros y st1 st2 HP.
    apply (float_for_invariant
             (λ st, seeded g0 st.1 ∧ ∃ k, length st.2 = 16 * k)); [|done].
    intros x st3 st4 [Hseed [k Hk]] Hcell.
    destruct (reset_cell_seeded g0 x y st3 st4 Hseed Hcell) as [Hseed' ->].
    split; [done|]. exists (S k).
    rewrite length_app, tracers_length, Hk. lia.
  - split; [|by exists 0]. split; [done|]. intros xi yi c' Hc. eauto.
Qed.

Lemma reset_sizes fuel s s' :
  reset fuel s = Some s' →
  _width s' = _width s ∧ _height s' = _height s ∧ _frameReady s' = false.
Proof.
  unfold reset. intros Hrun.
  repeat (apply bind_Some in Hrun as (? & _ & Hrun)). by simplify_eq.
Qed.

Lemma reset_grid fuel s s' :
  reset fuel s = Some s' →
  (∃ k, length (_particles s') = 16 * k) ∧
  ∃ g0, Grid_new (_width s) (_height s) = Some g0 ∧ seeded g0 (_grid s').
Proof.
  unfold reset. intros Hrun.
  apply bind_Some in Hrun as (g0 & Hnew & Hrun).
  apply bind_Some in Hrun as (st & Hloops & Hrun). simplify_eq. simpl.
  apply reset_loops in Hloops as [Hseed Hcount].
  split; [done|]. by exists g0.
Qed.

(** X12.  Whenever [reset] returns, the flag is cleared, the width and the
    height are those of before, the particles come in sixteens, and the grid
    is a fresh grid of that width and height in which every cell is either
    as constructed or [FLUID] with pressure one and the seed velocity of the
    counters that index it; the staged velocity is never assigned. *)
Theorem reset_postcondition fuel s s' :
  reset fuel s = Some s' →
  _frameReady s' = false ∧
  getSimulationWidth s' = getSimulationWidth s ∧
  getSimulationHeight s' = getSimulationHeight s ∧
  (∃ k, length (_particles s') = 16 * k) ∧
  ∃ g0, Grid_new (_width s) (_height s) = Some g0 ∧ seeded g0 (_grid s').
Proof.
  intros Hrun.
  pose proof (reset_sizes _ _ _ Hrun) as (Hw & Hh & Hflag).
  pose proof (reset_grid _ _ _ Hrun) as [Hcount Hgrid].
  done.
Qed.

Lemma reset_reads_sizes fuel s t :
  _width t = _width s → _height t = _height s → reset fuel t = reset fuel s.
Proof. unfold reset. by intros -> ->. Qed.

(** X13.  [reset] does not look at what it replaces: a second [reset]
    returns the state the first one returned. *)
Theorem reset_idempotent fuel s s' :
  reset fuel s = Some s' → reset fuel s' = Some s'.
Proof.
  intros Hrun. etrans; [|exact Hrun]. apply reset_reads_sizes.
  - unfold reset in Hrun. repeat (apply bind_Some in Hrun as (? & _ & Hrun)).
    by simplify_eq.
  - unfold reset in Hrun. repeat (apply bind_Some in Hrun as (? & _ & Hrun)).
    by simplify_eq.
Qed.

(** X14.  A constructed solver has the size it was constructed with, no
    frame ready, and is in its reset state: [reset] returns it unchanged. *)
Theorem FluidSolver_new_state fuel width height s :
  FluidSolver_new fuel width height = Some s →
  getSimulationWidth s = width ∧ getSimulationHeight s = height ∧
  _frameReady s = false ∧ reset fuel s = Some s.
Proof.
  unfold FluidSolver_new. intros (g & _ & Hrun)%bind_Some.
  assert (reset fuel s = Some s) as Hagain.
  { etrans; [|exact Hrun]. apply reset_reads_sizes.
    - unfold reset in Hrun. repeat (apply bind_Some in Hrun as (? & _ & Hrun)).
      by simplify_eq.
    - unfold reset in Hrun. repeat (apply bind_Some in Hrun as (? & _ & Hrun)).
      by simplify_eq. }
  unfold reset in Hrun. repeat (apply bind_Some in Hrun as (? & _ & Hrun)).
  by simplify_eq.
Qed.

End Reset.

(** ** draw and sequences of calls *)

Section Calls.

Context {grid_impl : GridImpl} {seed_field : SeedField}.

(** X15.  [draw] hands the renderer the grid and the particles of a
    ready frame, once, and clears the flag; when no frame is ready it hands
    the renderer nothing and changes nothing.  So drawing again right away
    hands it nothing more, and no call changes the grid or the particles. *)
Theorem draw_once s renderer :
  (_frameReady s = true →
     draw s renderer =
       (set_frameReady false s,
        renderer ++ [mkDrawCall (_grid s) (_particles s)])) ∧
  (_frameReady s = false → draw s renderer = (s, renderer)) ∧
  draw (draw s renderer).1 (draw s renderer).2 = draw s renderer ∧
  _frameReady (draw s renderer).1 = false ∧
  _grid (draw s renderer).1 = _grid s ∧
  _particles (draw s renderer).1 = _particles s.
Proof.
  unfold draw.
  destruct (_frameReady s) eqn:Hready; simpl; rewrite ?Hready; done.
Qed.

Lemma advanceFrame_ready fuel gas s s' :
  _frameReady s = true → advanceFrame fuel gas s = Some s' → s' = s.
Proof.
  intros Hready (tr & Hrun)%advanceFrame_Some.
  destruct fuel as [|fuel]; [done|].
  rewrite advanceFrame_loop_unfold, Hready in Hrun. by simplify_eq.
Qed.

Lemma advanceFrame_sizes fuel gas s s' :
  advanceFrame fuel gas s = Some s' →
  _width s' = _width s ∧ _height s' = _height s.
Proof.
  intros (tr & Hrun)%advanceFrame_Some.
  eapply (advanceFrame_loop_invariant
            (λ t, _width t = _width s ∧ _height t = _height s));
    [| |done|exact Hrun].
  - intros gas' dt t t' [? ?] (? & ? & _)%advanceTimeStep_solver.
    split; congruence.
  - done.
Qed.

Lemma calls_cons fuel gas c l st :
  calls fuel gas (c :: l) st = call fuel gas c st ≫= calls fuel gas l.
Proof. done. Qed.

Lemma pending_le s : pending s ≤ 1.
Proof. unfold pending. destruct (_frameReady s); lia. Qed.

(** What one call does to the renderer and to the pending frame. *)
Lemma call_renders fuel gas c s renderer s' renderer' :
  call fuel gas c (s, renderer) = Some (s', renderer') →
  ∃ new, renderer' = renderer ++ new ∧
    length new + pending s' ≤ pending s + framesRequested [c].
Proof.
  destruct c; simpl; intros Hrun.
  - apply bind_Some in Hrun as (s1 & Hreset & Hrun). simplify_eq.
    exists []. rewrite app_nil_r. split; [done|].
    apply reset_sizes in Hreset as (_ & _ & Hflag).
    unfold pending. rewrite Hflag. simpl. lia.
  - apply bind_Some in Hrun as (s1 & Hframe & Hrun). simplify_eq.
    exists []. rewrite app_nil_r. split; [done|].
    pose proof (pending_le s'). unfold framesRequested. simpl. lia.
  - unfold draw in Hrun. unfold pending.
    destruct (_frameReady s) eqn:Hready; simplify_eq.
    + eexists. split; [done|]. simpl. lia.
    + exists []. rewrite app_nil_r. split; [done|]. rewrite Hready. simpl. lia.
Qed.

Lemma framesRequested_cons c l :
  framesRequested (c :: l) = framesRequested [c] + framesRequested l.
Proof.
  unfold framesRequested. rewrite !filter_cons, filter_nil.
  case_decide; simpl; lia.
Qed.

(** X16.  Whatever the client calls and in whatever order, the renderer is
    only ever appended to, and the frames it is handed, with the one that may
    still wait, are no more than the [advanceFrame] calls made, with the
    frame that waited at the start: no frame is drawn twice. *)
Theorem calls_draw_each_frame_once fuel gas l s renderer s' renderer' :
  calls fuel gas l (s, renderer) = Some (s', renderer') →
  ∃ new, renderer' = renderer ++ new ∧
    length new + pending s' ≤ pending s + framesRequested l.
Proof.
  revert s renderer.
  induction l as [|c l IH]; intros s renderer Hrun.
  - unfold calls in Hrun. simpl in Hrun. simplify_eq.
    exists []. rewrite app_nil_r. split; [done|]. simpl. lia.
  - rewrite calls_cons in Hrun.
    apply bind_Some in Hrun as ([s1 r1] & Hcall & Hrun).
    apply call_renders in Hcall as (new1 & -> & Hle1).
    apply IH in Hrun as (new2 & -> & Hle2).
    exists (new1 ++ new2). rewrite app_assoc. split; [done|].
    rewrite length_app, framesRequested_cons. lia.
Qed.

(** X17.  Whatever the client calls, the simulation keeps the width and the
    height it had. *)
Theorem calls_keep_size fuel gas l s renderer s' renderer' :
  calls fuel gas l (s, renderer) = Some (s', renderer') →
  getSimulationWidth s' = getSimulationWidth s ∧
  getSimulationHeight s' = getSimulationHeight s.
Proof.
  unfold getSimulationWidth, getSimulationHeight. intros Hrun.
  apply (for_each_invariant
           (λ st : FluidSolver * list DrawCall,
              _width st.1 = _width s ∧ _height st.1 = _height s)
           (call fuel gas) l) in Hrun; [done| |done].
  intros c [t r] [t' r'] _ [Hw Hh] Hcall. simpl in *.
  destruct c; simpl in Hcall.
  - apply bind_Some in Hcall as (t1 & (? & ? & _)%reset_sizes & ?).
    simplify_eq. split; congruence.
  - apply bind_Some in Hcall as (t1 & [? ?]%advanceFrame_sizes & ?).
    simplify_eq. split; congruence.
  - unfold draw in Hcall. destruct (_frameReady t); by simplify_eq.
Qed.

(** What the calls keep true of the solver and of the renderer, when fresh
    grids of the solver's size are well formed. *)
Lemma call_walled fuel gas width height c s renderer s' renderer' :
  (∀ g, Grid_new width height = Some g → wf_grid g) →
  _width s = width ∧ _height s = height ∧ wf_grid (_grid s) ∧
    (_frameReady s = true → wallsEnforced (_grid s)) ∧
    Forall (λ dc, wallsEnforced (drawnGrid dc)) renderer →
  call fuel gas c (s, renderer) = Some (s', renderer') →
  _width s' = width ∧ _height s' = height ∧ wf_grid (_grid s') ∧
    (_frameReady s' = true → wallsEnforced (_grid s')) ∧
    Forall (λ dc, wallsEnforced (drawnGrid dc)) renderer'.
Proof.
  intros Hfresh (Hw & Hh & Hwf & Hwalls & Hdrawn) Hcall.
  destruct c; simpl in Hcall.
  - apply bind_Some in Hcall as (s1 & Hreset & Hcall).
    injection Hcall as -> ->.
    pose proof (reset_sizes _ _ _ Hreset) as (Hw' & Hh' & Hflag).
    apply reset_grid in Hreset as (_ & g0 & Hnew & Hshape & _).
    rewrite Hw, Hh in Hnew.
    split; [congruence|]. split; [congruence|].
    split; [by eapply wf_grid_shape; [|apply Hfresh]|].
    split; [by rewrite Hflag|done].
  - apply bind_Some in Hcall as (s1 & Hframe & Hcall).
    injection Hcall as -> ->.
    pose proof (advanceFrame_sizes _ _ _ _ Hframe) as [Hw' Hh'].
    split; [congruence|]. split; [congruence|].
    destruct (_frameReady s) eqn:Hready.
    + apply advanceFrame_ready in Hframe as ->; [|done].
      rewrite Hready. by auto.
    + apply advanceFrame_grid in Hframe as (Hshape & Hwalls' & _); [|done..].
      split; [by eapply wf_grid_shape|]. by auto.
  - unfold draw in Hcall.
    destruct (_frameReady s) eqn:Hready; injection Hcall as <- <-; simpl.
    + split; [done|]. split; [done|]. split; [done|]. split; [done|].
      apply Forall_app. split; [done|].
      constructor; [by apply Hwalls|done].
    + by rewrite Hready.
Qed.

(** X18.  From construction on, whatever the client calls, every frame
    handed to the renderer has its walls in place, provided the grid
    constructor makes well-formed grids of the solver's size. *)
Theorem drawn_frames_have_walls fuel gas width height l s s' renderer :
  (∀ g, Grid_new width height = Some g → wf_grid g) →
  FluidSolver_new fuel width height = Some s →
  calls fuel gas l (s, []) = Some (s', renderer) →
  Forall (λ dc, wallsEnforced (drawnGrid dc)) renderer.
Proof.
  intros Hfresh Hnew Hrun.
  assert (_width s = width ∧ _height s = height ∧ wf_grid (_grid s) ∧
          (_frameReady s = true → wallsEnforced (_grid s)) ∧
          Forall (λ dc, wallsEnforced (drawnGrid dc)) (@nil DrawCall))
    as Hstart.
  { unfold FluidSolver_new in Hnew.
    apply bind_Some in Hnew as (g & Hg & Hreset). simpl in Hreset.
    pose proof (reset_sizes _ _ _ Hreset) as (Hw & Hh & Hflag). simpl in *.
    apply reset_grid in Hreset as (_ & g0 & Hnew & Hshape & _). simpl in Hnew.
    split; [done|]. split; [done|].
    split; [by eapply wf_grid_shape; [|apply Hfresh]|].
    split; [by rewrite Hflag|done]. }
  apply (for_each_invariant
           (λ st : FluidSolver * list DrawCall,
              _width st.1 = width ∧ _height st.1 = height ∧
              wf_grid (_grid st.1) ∧
              (_frameReady st.1 = true → wallsEnforced (_grid st.1)) ∧
              Forall (λ dc, wallsEnforced (drawnGrid dc)) st.2)
           (call fuel gas) l) in Hrun; [by destruct Hrun as (_ & _ & _ & _ & ?)| |done].
  intros c [t r] [t' r'] _ Hinv Hcall. simpl in *.
  by eapply call_walled.
Qed.

End Calls.

(** ** The clamps of advectVelocity *)

Lemma ltb_irrefl (x : float) : F32.ltb x x = false.
Proof.
  unfold F32.ltb, SFltb, SFcompare.
  destruct x as [[]|[]| |[] m e]; try done;
    by rewrite Z.compare_refl, Pos.compare_refl.
Qed.

Lemma gtb_irrefl (x : float) : F32.gtb x x = false.
Proof. apply ltb_irrefl. Qed.

Lemma clampPosition_unfold g x y :
  clampPosition g (mkVector2 x y) =
    let x1 := if F32.ltb x F32.zero then F32.zero else x in
    let x2 := if F32.gtb y (getWidth g) then getWidth g else x1 in
    let y3 := if F32.ltb y F32.zero then F32.zero else y in
    let y4 := if F32.gtb y3 (getHeight g) then getHeight g else y3 in
    mkVector2 x2 y4.
Proof.
  unfold clampPosition, zeroX, zeroY, setX, setY. cbv zeta. cbn [vec_x vec_y].
  destruct (F32.ltb x F32.zero); cbn [vec_x vec_y];
    destruct (F32.gtb y (getWidth g)); cbn [vec_x vec_y];
    destruct (F32.ltb y F32.zero); cbn [vec_x vec_y];
    match goal with
    | |- context [F32.gtb ?v (getHeight g)] => destruct (F32.gtb v (getHeight g))
    end; reflexivity.
Qed.

(** X19.  Wherever the backtraced point lies, the point the field is
    sampled at is never below the grid nor above it, and never left of it:
    after the four clamps [y] compares neither less than zero nor greater
    than the grid's height, and [x] does not compare less than zero, in a
    grid whose width and height are not negative.  (No such bound holds for
    [x] on the right.) *)
Theorem clampPosition_bounds g position :
  F32.ltb (getWidth g) F32.zero = false →
  F32.ltb (getHeight g) F32.zero = false →
  F32.ltb (vec_y (clampPosition g position)) F32.zero = false ∧
  F32.gtb (vec_y (clampPosition g position)) (getHeight g) = false ∧
  F32.ltb (vec_x (clampPosition g position)) F32.zero = false.
Proof.
  intros Hw Hh. destruct position as [x y].
  rewrite clampPosition_unfold. cbv zeta. cbn [vec_x vec_y].
  split; [|split].
  - destruct (F32.ltb y F32.zero) eqn:Hy.
    + destruct (F32.gtb F32.zero (getHeight g)); [done|apply ltb_irrefl].
    + by destruct (F32.gtb y (getHeight g)).
  - destruct (F32.ltb y F32.zero) eqn:Hy.
    + by destruct (F32.gtb F32.zero (getHeight g)) eqn:Hg;
        [apply gtb_irrefl|].
    + by destruct (F32.gtb y (getHeight g)) eqn:Hg; [apply gtb_irrefl|].
  - destruct (F32.gtb y (getWidth g)); [done|].
    destruct (F32.ltb x F32.zero) eqn:Hx; [apply ltb_irrefl|done].
Qed.

(** ** Runs *)

Section Runs.

#[local] Existing Instances SpecGrid.impl SpecGrid.seed.

Lemma still_solver_frame : is_Some (advanceFrame 2 6 still_solver).
Proof. vm_compute. eexists. reflexivity. Defined.

Lemma still_grid_advected : is_Some (advectVelocity 6 frameTime still_grid).
Proof. vm_compute. eexists. reflexivity. Defined.

Lemma still_grid_collided : is_Some (boundaryCollide still_grid).
Proof. vm_compute. eexists. reflexivity. Defined.

Lemma dry_grid_wf : wf_grid dry_grid.
Proof. split; [reflexivity|reflexivity..]. Defined.

Lemma four_reset :
  is_Some (reset 5 (mkFluidSolver four four empty_grid true [])).
Proof. vm_compute. eexists. reflexivity. Defined.

Lemma four_new : is_Some (FluidSolver_new 5 four four).
Proof. vm_compute. eexists. reflexivity. Defined.

Lemma four_fresh g : Grid_new four four = Some g → wf_grid g.
Proof.
  intros Hg. vm_compute in Hg. injection Hg as <-.
  split; [reflexivity|reflexivity..].
Defined.

Lemma still_session : is_Some (calls 5 6 session (still_solver, [])).
Proof. vm_compute. eexists. reflexivity. Defined.

Lemma four_session :
  is_Some (FluidSolver_new 5 four four ≫= λ s, calls 5 6 session (s, [])).
Proof. vm_compute. eexists. reflexivity. Defined.

Lemma advanceFrame_sets_flag_witness :
  ∃ s', advanceFrame 2 6 still_solver = Some s' ∧ _frameReady s' = true.
Proof.
  destruct still_solver_frame as [s' Hs']. exists s'. split; [exact Hs'|].
  exact (advanceFrame_sets_flag 2 6 still_solver s' Hs').
Defined.

Lemma advanceFrame_spends_frame_witness :
  ∃ s' trace, advanceFrame_trace 2 6 breeze_solver = Some (s', trace) ∧
    trace ≠ [] ∧ stepsCapped frameTime trace ∧
    F32.leb (timeLeft frameTime trace) F32.zero = true ∧
    ∃ s_end,
      replay 6 breeze_solver trace = Some (maxVelocityMagnitude <$> trace, s_end) ∧
      s' = set_frameReady true s_end.
Proof.
  destruct (advanceFrame_trace 2 6 breeze_solver) as [[s' trace]|] eqn:Hrun;
    [|vm_compute in Hrun; discriminate].
  exists s', trace. split; [reflexivity|].
  apply (advanceFrame_spends_frame 2 6 breeze_solver s' trace);
    [reflexivity|exact Hrun].
Defined.

Lemma advanceFrame_keeps_sizes_witness :
  ∃ s', advanceFrame 2 6 still_solver = Some s' ∧
    getSimulationWidth s' = getSimulationWidth still_solver ∧
    getSimulationHeight s' = getSimulationHeight still_solver ∧
    length (_particles s') = length (_particles still_solver) ∧
    shape (_grid s') = shape (_grid still_solver).
Proof.
  destruct still_solver_frame as [s' Hs']. exists s'. split; [exact Hs'|].
  exact (advanceFrame_keeps_sizes 2 6 still_solver s' Hs').
Defined.

Lemma applyGlobalVelocity_all_cells_witness :
  applyGlobalVelocity (Vector2_scale gravity frameTime) still_grid =
    Some (set_cells still_grid
            (pushCell (Vector2_scale gravity frameTime) <$> cells still_grid)).
Proof.
  exact (applyGlobalVelocity_all_cells (Vector2_scale gravity frameTime)
           still_grid still_grid_wf).
Defined.

Lemma advectVelocity_commits_witness :
  ∃ g', advectVelocity 6 frameTime still_grid = Some g' ∧
    Forall (λ c, ∀ d, vel c d = stagedVel c d) (cells g') ∧
    keeps static still_grid g'.
Proof.
  destruct still_grid_advected as [g' Hg']. exists g'. split; [exact Hg'|].
  exact (advectVelocity_commits 6 frameTime still_grid g' still_grid_wf Hg').
Defined.

Lemma boundaryCollide_exact_witness :
  ∃ g', boundaryCollide still_grid = Some g' ∧ shape g' = shape still_grid ∧
    (∀ x y, cellAt g' x y = boundaryCell 4 4 x y <$> cellAt still_grid x y) ∧
    (∀ x y, (0 < x)%N → (x + 1 < 4)%N → (0 < y)%N → (y + 1 < 4)%N →
            cellAt g' x y = cellAt still_grid x y).
Proof.
  apply (boundaryCollide_exact still_grid still_grid_wf); reflexivity.
Defined.

Lemma boundaryCollide_idempotent_witness :
  ∃ g', boundaryCollide still_grid = Some g' ∧ boundaryCollide g' = Some g'.
Proof.
  destruct still_grid_collided as [g' Hg']. exists g'. split; [exact Hg'|].
  exact (boundaryCollide_idempotent still_grid g' still_grid_wf Hg').
Defined.

Lemma pressureSolve_exact_witness :
  ∃ g', pressureSolve frameTime still_grid = Some g' ∧
    shape g' = shape still_grid ∧
    ∀ x y c, cellAt still_grid x y = Some c →
      ∃ c', cellAt g' x y = Some c' ∧
        pressure c' = pressure c ∧ cellType c' = cellType c ∧
        (∀ d, stagedVel c' d = stagedVel c d) ∧
        (∀ d, vel c' d = pressureSolvedVel frameTime still_grid x y d (vel c d)).
Proof. exact (pressureSolve_exact frameTime still_grid still_grid_wf). Defined.

Lemma pressureSolve_without_fluid_witness :
  pressureSolve frameTime dry_grid = Some dry_grid.
Proof.
  apply (pressureSolve_without_fluid frameTime dry_grid dry_grid_wf).
  apply Forall_cons_2; [discriminate|].
  apply Forall_cons_2; [discriminate|]. apply Forall_nil_2.
Defined.

Lemma advanceFrame_enforces_walls_witness :
  ∃ s', advanceFrame 2 6 still_solver = Some s' ∧ wallsEnforced (_grid s').
Proof.
  destruct still_solver_frame as [s' Hs']. exists s'. split; [exact Hs'|].
  apply (advanceFrame_enforces_walls 2 6 still_solver s');
    [exact still_grid_wf|reflexivity|exact Hs'].
Defined.

Lemma advanceFrame_settles_witness :
  ∃ s', advanceFrame 2 6 still_solver = Some s' ∧
    ∀ x y c, cellAt (_grid still_solver) x y = Some c →
      ∃ c', cellAt (_grid s') x y = Some c' ∧ pressure c' = pressure c ∧
        cellType c' = sealedType (_grid still_solver) x y (cellType c).
Proof.
  destruct still_solver_frame as [s' Hs']. exists s'. split; [exact Hs'|].
  apply (advanceFrame_settles 2 6 still_solver s');
    [exact still_grid_wf|reflexivity|exact Hs'].
Defined.

Lemma reset_postcondition_witness :
  ∃ s', reset 5 (mkFluidSolver four four empty_grid true []) = Some s' ∧
    _frameReady s' = false ∧
    getSimulationWidth s' = four ∧ getSimulationHeight s' = four ∧
    (∃ k, length (_particles s') = 16 * k) ∧
    ∃ g0, Grid_new four four = Some g0 ∧ seeded g0 (_grid s').
Proof.
  destruct four_reset as [s' Hs']. exists s'. split; [exact Hs'|].
  exact (reset_postcondition 5 (mkFluidSolver four four empty_grid true [])
           s' Hs').
Defined.

Lemma reset_idempotent_witness :
  ∃ s', reset 5 (mkFluidSolver four four empty_grid true []) = Some s' ∧
    reset 5 s' = Some s'.
Proof.
  destruct four_reset as [s' Hs']. exists s'. split; [exact Hs'|].
  exact (reset_idempotent 5 (mkFluidSolver four four empty_grid true [])
           s' Hs').
Defined.

Lemma FluidSolver_new_state_witness :
  ∃ s, FluidSolver_new 5 four four = Some s ∧
    getSimulationWidth s = four ∧ getSimulationHeight s = four ∧
    _frameReady s = false ∧ reset 5 s = Some s.
Proof.
  destruct four_new as [s Hs]. exists s. split; [exact Hs|].
  exact (FluidSolver_new_state 5 four four s Hs).
Defined.

Lemma calls_draw_each_frame_once_witness :
  ∃ s' renderer', calls 5 6 session (still_solver, []) = Some (s', renderer') ∧
    ∃ new, renderer' = [] ++ new ∧
      length new + pending s' ≤ pending still_solver + framesRequested session.
Proof.
  destruct still_session as [[s' renderer'] Hrun]. exists s', renderer'.
  split; [exact Hrun|].
  exact (calls_draw_each_frame_once 5 6 session still_solver [] s' renderer'
           Hrun).
Defined.

Lemma calls_keep_size_witness :
  ∃ s' renderer', calls 5 6 session (still_solver, []) = Some (s', renderer') ∧
    getSimulationWidth s' = getSimulationWidth still_solver ∧
    getSimulationHeight s' = getSimulationHeight still_solver.
Proof.
  destruct still_session as [[s' renderer'] Hrun]. exists s', renderer'.
  split; [exact Hrun|].
  exact (calls_keep_size 5 6 session still_solver [] s' renderer' Hrun).
Defined.

Lemma drawn_frames_have_walls_witness :
  ∃ s s' renderer,
    FluidSolver_new 5 four four = Some s ∧
    calls 5 6 session (s, []) = Some (s', renderer) ∧
    Forall (λ dc, wallsEnforced (drawnGrid dc)) renderer.
Proof.
  destruct four_session as [[s' renderer] Hrun].
  apply bind_Some in Hrun as (s & Hnew & Hrun).
  exists s, s', renderer. split; [exact Hnew|]. split; [exact Hrun|].
  exact (drawn_frames_have_walls 5 6 four four session s s' renderer
           four_fresh Hnew Hrun).
Defined.

Lemma clampPosition_bounds_witness :
  F32.ltb (vec_y (clampPosition still_grid outside_point)) F32.zero = false ∧
  F32.gtb (vec_y (clampPosition still_grid outside_point)) (getHeight still_grid)
    = false ∧
  F32.ltb (vec_x (clampPosition still_grid outside_point)) F32.zero = false.
Proof.
  apply (clampPosition_bounds still_grid outside_point); reflexivity.
Defined.

End Runs.

(** * Termination *)

(** ** Exact arithmetic on the loop counters

    The float loops count [0, 1, 2, ...] and [0.5, 1.5, 2.5, ...].  Below
    [2^24] and [2^23] these values are binary32 numbers, adding [1.0f] to one
    gives the next without rounding, their order is that of the integers,
    and [floor] gives the integer back. *)

Lemma shl_S k a : shl (S k) a = xO (shl k a).
Proof. done. Qed.

Lemma shl_add j k a : shl j (shl k a) = shl (j + k) a.
Proof. unfold shl. by rewrite Nat.iter_add. Qed.

Lemma shl_Z k a : Zpos (shl k a) = (Zpos a * 2 ^ Z.of_nat k)%Z.
Proof.
  induction k as [|k IH].
  - simpl. lia.
  - rewrite shl_S, Pos2Z.inj_xO, IH, Nat2Z.inj_succ, Z.pow_succ_r by lia. lia.
Qed.

Lemma Pos_iter_shl a p : Pos.iter xO a p = shl (Pos.to_nat p) a.
Proof. unfold shl. apply Pos2Nat.inj_iter. Qed.

Lemma digits_pos a : 0 < digits a.
Proof. unfold digits. lia. Qed.

Lemma digits_shl k a : digits (shl k a) = digits a + k.
Proof.
  unfold digits. induction k as [|k IH]; [simpl; lia|].
  rewrite shl_S. simpl. rewrite Pos2Nat.inj_succ, IH. lia.
Qed.

Lemma digits2_pos_digits a : Zpos (digits2_pos a) = Z.of_nat (digits a).
Proof. unfold digits. by rewrite positive_nat_Z. Qed.

Lemma iter_pos_nat {A : Type} (f : A → A) p x :
  SpecFloat.iter_pos f p x = Nat.iter (Pos.to_nat p) f x.
Proof.
  revert x. induction p as [p IH|p IH|]; intros x; cbn [SpecFloat.iter_pos].
  - rewrite !IH, Pos2Nat.inj_xI, <- Nat.iter_add, <- Nat.iter_succ_r.
    f_equal. lia.
  - rewrite !IH, Pos2Nat.inj_xO, <- Nat.iter_add. f_equal. lia.
  - done.
Qed.

Lemma shr_shl k m :
  Nat.iter k shr_1 (Build_shr_record (Zpos (shl k m)) false false)
  = Build_shr_record (Zpos m) false false.
Proof.
  induction k as [|k IH]; [done|].
  by rewrite Nat.iter_succ_r, shl_S.
Qed.

Lemma fexp_normal e : (-149 <= e)%Z → fexp 24 128 (24 + e) = e.
Proof. unfold fexp, emin. lia. Qed.

Lemma binary_round_aux_exact m e k :
  digits m = 24 → (-149 <= e <= 104)%Z →
  binary_round_aux 24 128 false (Zpos (shl k m)) (e - Z.of_nat k) loc_Exact
  = S754_finite false m e.
Proof.
  intros Hd He.
  assert (shr_fexp 24 128 (Zpos m) e loc_Exact
          = (Build_shr_record (Zpos m) false false, e)) as Hid.
  { unfold shr_fexp, Zdigits2. rewrite digits2_pos_digits, Hd.
    change (Z.of_nat 24) with 24%Z. rewrite fexp_normal by lia.
    by rewrite Z.sub_diag. }
  assert (shr_fexp 24 128 (Zpos (shl k m)) (e - Z.of_nat k) loc_Exact
          = (Build_shr_record (Zpos m) false false, e)) as Hshr.
  { unfold shr_fexp, Zdigits2.
    rewrite digits2_pos_digits, digits_shl, Hd.
    replace (Z.of_nat (24 + k) + (e - Z.of_nat k))%Z with (24 + e)%Z by lia.
    rewrite fexp_normal by lia.
    replace (e - (e - Z.of_nat k))%Z with (Z.of_nat k) by lia.
    unfold shr, shr_record_of_loc. destruct k as [|k].
    - simpl. f_equal. lia.
    - change (Z.of_nat (S k)) with (Zpos (Pos.of_succ_nat k)). cbv iota beta.
      rewrite iter_pos_nat, SuccNat2Pos.id_succ, shr_shl. f_equal. lia. }
  unfold binary_round_aux. rewrite Hshr. cbn [shr_m loc_of_shr_record round_nearest_even].
  rewrite Hid. cbn [shr_m].
  destruct (Z.leb_spec e (128 - 24)); [done|lia].
Qed.

Lemma shl_align_fst m e ez :
  (ez <= e)%Z → fst (shl_align m e ez) = shl (Z.to_nat (e - ez)) m.
Proof.
  intros Hle. unfold shl_align.
  destruct (ez - e)%Z as [|p|p] eqn:Hd; try lia.
  - replace (e - ez)%Z with 0%Z by lia. done.
  - cbn [fst]. rewrite Pos_iter_shl. f_equal. lia.
Qed.

Lemma binary_round_dyadic a b j :
  digits a ≤ 24 → (-125 <= b <= 104)%Z →
  binary_round 24 128 false (shl j a) (b - Z.of_nat j) = dyadic a b.
Proof.
  intros Hd Hb. pose proof (digits_pos a) as Hpos.
  unfold binary_round, dyadic.
  rewrite digits2_pos_digits, digits_shl.
  replace (Z.of_nat (digits a + j) + (b - Z.of_nat j))%Z
    with (24 + (b - Z.of_nat (24 - digits a)))%Z by lia.
  rewrite fexp_normal by lia.
  set (e := (b - Z.of_nat (24 - digits a))%Z).
  destruct (decide (24 - digits a ≤ j)) as [Hj|Hj].
  - assert (shl_align (shl j a) (b - Z.of_nat j) e = (shl j a, (b - Z.of_nat j)%Z))
      as ->.
    { unfold shl_align. destruct (e - (b - Z.of_nat j))%Z eqn:Hd'; try done.
      unfold e in Hd'. lia. }
    replace j with ((j - (24 - digits a)) + (24 - digits a)) at 1 by lia.
    rewrite <- shl_add.
    replace (b - Z.of_nat j)%Z with (e - Z.of_nat (j - (24 - digits a)))%Z
      by (unfold e; lia).
    apply binary_round_aux_exact; [|unfold e; lia].
    rewrite digits_shl. lia.
  - pose proof (shl_align_fst (shl j a) (b - Z.of_nat j) e) as Hfst.
    destruct (shl_align (shl j a) (b - Z.of_nat j) e) as [mz ez] eqn:Hal.
    assert (ez = e) as ->.
    { unfold shl_align in Hal.
      destruct (e - (b - Z.of_nat j))%Z eqn:Hd'; unfold e in Hd'; try lia.
      by injection Hal as _ <-. }
    cbn [fst] in Hfst. rewrite Hfst by (unfold e; lia).
    rewrite shl_add.
    replace (Z.to_nat (b - Z.of_nat j - e) + j) with (24 - digits a)
      by (unfold e; lia).
    replace e with (e - Z.of_nat 0)%Z at 1 by lia.
    change (shl (24 - digits a) a) with (shl 0 (shl (24 - digits a) a)) at 1.
    apply binary_round_aux_exact; [|unfold e; lia].
    rewrite digits_shl. lia.
Qed.

Lemma digits_bounds a :
  (2 ^ (Z.of_nat (digits a) - 1) <= Zpos a < 2 ^ Z.of_nat (digits a))%Z.
Proof.
  unfold digits. induction a as [a IH|a IH|]; cbn [digits2_pos].
  - rewrite Pos2Nat.inj_succ, Nat2Z.inj_succ, Pos2Z.inj_xI.
    replace (Z.succ (Z.of_nat (Pos.to_nat (digits2_pos a))) - 1)%Z
      with (Z.succ (Z.of_nat (Pos.to_nat (digits2_pos a)) - 1)) by lia.
    rewrite !Z.pow_succ_r by lia. lia.
  - rewrite Pos2Nat.inj_succ, Nat2Z.inj_succ.
    change (Z.pos a~0) with (2 * Z.pos a)%Z.
    replace (Z.succ (Z.of_nat (Pos.to_nat (digits2_pos a))) - 1)%Z
      with (Z.succ (Z.of_nat (Pos.to_nat (digits2_pos a)) - 1)) by lia.
    rewrite !Z.pow_succ_r by lia. lia.
  - change (1 <= 1 < 2)%Z. lia.
Qed.

Lemma digits_le a n : (Zpos a < 2 ^ Z.of_nat n)%Z → digits a ≤ n.
Proof.
  intros Hlt. pose proof (digits_bounds a) as [Hlo _].
  destruct (decide (digits a ≤ n)) as [|Hgt]; [done|].
  assert (2 ^ Z.of_nat n <= 2 ^ (Z.of_nat (digits a) - 1))%Z
    by (apply Z.pow_le_mono_r; lia).
  lia.
Qed.

Lemma digits_mono a a' : (a <= a')%positive → digits a ≤ digits a'.
Proof.
  intros Hle. apply digits_le. pose proof (digits_bounds a') as [_ Hhi]. lia.
Qed.

Lemma of_N_dyadic a : digits a ≤ 24 → F32.of_N (Npos a) = dyadic a 0.
Proof.
  intros Hd. unfold F32.of_N, F32.of_Z. cbn [Z.of_N binary_normalize].
  change a with (shl 0 a) at 1. change 0%Z with (0 - Z.of_nat 0)%Z at 1.
  by apply binary_round_dyadic.
Qed.

Lemma shl_plus k a b : (shl k a + shl k b)%positive = shl k (a + b).
Proof.
  apply Pos2Z.inj. rewrite Pos2Z.inj_add, !shl_Z, Pos2Z.inj_add. lia.
Qed.

Lemma one_dyadic : F32.one = dyadic 1 0.
Proof. reflexivity. Qed.

Lemma half_dyadic : F32.half = dyadic 1 (-1).
Proof. reflexivity. Qed.

Lemma add_finite mx ex my ey :
  F32.add (S754_finite false mx ex) (S754_finite false my ey)
  = binary_round 24 128 false
      (shl (Z.to_nat (ex - Z.min ex ey)) mx + shl (Z.to_nat (ey - Z.min ex ey)) my)
      (Z.min ex ey).
Proof.
  unfold F32.add, SFadd. cbv zeta. cbn [cond_Zopp].
  rewrite !shl_align_fst by lia. done.
Qed.

Lemma add_one_int a :
  digits (a + 1) ≤ 24 → F32.add (dyadic a 0) F32.one = dyadic (a + 1) 0.
Proof.
  intros Hd. pose proof (digits_pos a) as Hpos.
  pose proof (digits_mono a (a + 1) ltac:(lia)) as Hmono.
  rewrite one_dyadic. unfold dyadic at 1 2. rewrite add_finite.
  change (digits 1) with 1. cbn [Nat.sub].
  rewrite (Z.min_r _ (0 - Z.of_nat 23)) by lia.
  rewrite !shl_add.
  replace (Z.to_nat (0 - Z.of_nat (24 - digits a) - (0 - Z.of_nat 23)) + (24 - digits a))
    with 23 by lia.
  replace (Z.to_nat (0 - Z.of_nat 23 - (0 - Z.of_nat 23)) + 23) with 23 by lia.
  rewrite shl_plus. by apply binary_round_dyadic.
Qed.

Lemma add_one_half a :
  digits (a + 2) ≤ 24 → F32.add (dyadic a (-1)) F32.one = dyadic (a + 2) (-1).
Proof.
  intros Hd. pose proof (digits_pos a) as Hpos.
  pose proof (digits_mono a (a + 2) ltac:(lia)) as Hmono.
  rewrite one_dyadic. unfold dyadic at 1 2. rewrite add_finite.
  change (digits 1) with 1. cbn [Nat.sub]. rewrite !shl_add.
  destruct (decide (digits a = 1)) as [Hone|Hmore].
  - rewrite Hone. cbn [Nat.sub].
    rewrite (Z.min_l _ (0 - Z.of_nat 23)) by lia.
    replace (Z.to_nat (-1 - Z.of_nat 23 - (-1 - Z.of_nat 23)) + 23) with 23 by lia.
    replace (Z.to_nat (0 - Z.of_nat 23 - (-1 - Z.of_nat 23)) + 23) with (23 + 1) by lia.
    rewrite <- (shl_add 23 1 1). change (shl 1 1) with 2%positive.
    rewrite shl_plus.
    replace (-1 - Z.of_nat 23)%Z with (-1 - Z.of_nat 23)%Z by lia.
    by apply binary_round_dyadic.
  - rewrite (Z.min_r _ (0 - Z.of_nat 23)) by lia.
    replace (Z.to_nat (-1 - Z.of_nat (24 - digits a) - (0 - Z.of_nat 23)) + (24 - digits a))
      with 22 by lia.
    replace (Z.to_nat (0 - Z.of_nat 23 - (0 - Z.of_nat 23)) + 23) with (22 + 1) by lia.
    rewrite <- (shl_add 22 1 1). change (shl 1 1) with 2%positive.
    rewrite shl_plus.
    replace (0 - Z.of_nat 23)%Z with (-1 - Z.of_nat 22)%Z by lia.
    by apply binary_round_dyadic.
Qed.

Lemma shl_compare k a a' : (shl k a ?= shl k a')%positive = (a ?= a')%positive.
Proof.
  rewrite !Pos2Z.inj_compare, !shl_Z.
  assert (0 < 2 ^ Z.of_nat k)%Z by (apply Z.pow_pos_nonneg; lia).
  destruct (Z.compare_spec (Zpos a) (Zpos a')) as [Heq|Hlt|Hgt].
  - rewrite Heq. apply Z.compare_refl.
  - apply Z.compare_lt_iff. nia.
  - apply Z.compare_gt_iff. nia.
Qed.

Lemma digits_lt a a' : digits a < digits a' → (a < a')%positive.
Proof.
  intros Hlt. pose proof (digits_bounds a) as [_ Hhi].
  pose proof (digits_bounds a') as [Hlo _].
  assert (2 ^ Z.of_nat (digits a) <= 2 ^ (Z.of_nat (digits a') - 1))%Z
    by (apply Z.pow_le_mono_r; lia).
  lia.
Qed.

Lemma ltb_dyadic a a' b :
  digits a ≤ 24 → digits a' ≤ 24 →
  F32.ltb (dyadic a b) (dyadic a' b) = (a <? a')%positive.
Proof.
  intros Hd Hd'. unfold F32.ltb, SFltb, SFcompare, dyadic.
  destruct (Z.compare_spec (b - Z.of_nat (24 - digits a))
              (b - Z.of_nat (24 - digits a'))) as [Heq|Hlt|Hgt].
  - replace (digits a') with (digits a) by lia.
    rewrite Pos.compare_cont_spec, shl_compare. cbn [Pos.switch_Eq].
    unfold Pos.ltb. by destruct (a ?= a')%positive.
  - symmetry. apply Pos.ltb_lt, digits_lt. lia.
  - symmetry. apply Pos.ltb_ge.
    assert (a' < a)%positive by (apply digits_lt; lia). lia.
Qed.

Lemma dyadic_double a b :
  digits a < 24 → dyadic (a~0) (b - 1) = dyadic a b.
Proof.
  intros Hd. unfold dyadic.
  change (a~0)%positive with (shl 1 a). rewrite digits_shl, shl_add.
  f_equal; [f_equal|]; lia.
Qed.

Lemma floorZ_dyadic a (j : nat) :
  digits a ≤ 24 →
  F32.floorZ (dyadic a (- Z.of_nat j)) = Some (Zpos a / 2 ^ Z.of_nat j)%Z.
Proof.
  intros Hd. unfold F32.floorZ, dyadic. cbn [cond_Zopp]. f_equal.
  rewrite Z.shiftl_div_pow2 by lia. rewrite shl_Z.
  replace (- (- Z.of_nat j - Z.of_nat (24 - digits a)))%Z
    with (Z.of_nat j + Z.of_nat (24 - digits a))%Z by lia.
  rewrite Z.pow_add_r by lia.
  rewrite Z.div_mul_cancel_r; [done| |];
    apply Z.pow_nonzero; lia.
Qed.

Lemma wholeCounter_next k :
  (k + 1 < 2 ^ 24)%N →
  F32.add (F32.of_N k) F32.one = F32.of_N (k + 1).
Proof.
  intros Hk. destruct k as [|a]; [reflexivity|].
  change (N.pos a + 1)%N with (N.pos (a + 1)).
  rewrite !of_N_dyadic by (apply digits_le; change (2 ^ Z.of_nat 24)%Z with (Z.of_N (2 ^ 24)); lia).
  apply add_one_int. apply digits_le.
  change (2 ^ Z.of_nat 24)%Z with (Z.of_N (2 ^ 24)). lia.
Qed.

Lemma halfCounter_zero : halfCounter 0 = F32.half.
Proof. reflexivity. Qed.

Lemma halfCounter_next k :
  (k + 1 < 2 ^ 23)%N →
  F32.add (halfCounter k) F32.one = halfCounter (k + 1).
Proof.
  intros Hk. unfold halfCounter.
  replace (N.succ_pos (2 * (k + 1))) with (N.succ_pos (2 * k) + 2)%positive
    by lia.
  apply add_one_half. apply digits_le.
  change (2 ^ Z.of_nat 24)%Z with (Z.of_N (2 ^ 24)). lia.
Qed.

Lemma wholeCounter_ltb k n :
  (k < 2 ^ 24)%N → (n < 2 ^ 24)%N →
  F32.ltb (F32.of_N k) (F32.of_N n) = (k <? n)%N.
Proof.
  intros Hk Hn.
  assert (∀ a, (N.pos a < 2 ^ 24)%N → digits a ≤ 24) as Hdig.
  { intros a Ha. apply digits_le.
    change (2 ^ Z.of_nat 24)%Z with (Z.of_N (2 ^ 24)). lia. }
  destruct k as [|a], n as [|a']; try reflexivity.
  - rewrite of_N_dyadic by auto. reflexivity.
  - rewrite of_N_dyadic by auto. reflexivity.
  - rewrite !of_N_dyadic, ltb_dyadic by auto. reflexivity.
Qed.

Lemma halfCounter_ltb k n :
  (k < 2 ^ 23)%N → (n < 2 ^ 23)%N →
  F32.ltb (halfCounter k) (F32.of_N n) = (k <? n)%N.
Proof.
  intros Hk Hn. unfold halfCounter.
  assert (∀ a, (Zpos a < Z.of_N (2 ^ 24))%Z → digits a ≤ 24) as Hdig.
  { intros a Ha. by apply digits_le. }
  destruct n as [|a'].
  - rewrite (proj2 (N.ltb_ge k 0)) by lia. reflexivity.
  - assert (digits a' < 24) as Hd'.
    { assert (digits a' ≤ 23); [|lia]. apply digits_le.
      change (2 ^ Z.of_nat 23)%Z with (Z.of_N (2 ^ 23)). lia. }
    rewrite of_N_dyadic by lia.
    rewrite <- (dyadic_double a' 0) by done. change (0 - 1)%Z with (-1)%Z.
    rewrite ltb_dyadic;
      [|apply Hdig; lia|change (a'~0)%positive with (shl 1 a'); rewrite digits_shl; lia].
    destruct (N.ltb_spec k (N.pos a')).
    + apply Pos.ltb_lt. lia.
    + apply Pos.ltb_ge. lia.
Qed.

Lemma wholeCounter_unsigned k :
  (k < 2 ^ 24)%N → F32.to_unsigned (F32.of_N k) = Some k.
Proof.
  intros Hk. unfold F32.to_unsigned.
  destruct k as [|a]; [reflexivity|].
  assert (digits a ≤ 24) as Hd.
  { apply digits_le. change (2 ^ Z.of_nat 24)%Z with (Z.of_N (2 ^ 24)). lia. }
  rewrite of_N_dyadic by done.
  change 0%Z with (- Z.of_nat 0)%Z. rewrite floorZ_dyadic by done.
  cbn [mbind option_bind]. change (2 ^ Z.of_nat 0)%Z with 1%Z. rewrite Z.div_1_r.
  rewrite decide_True by lia. done.
Qed.

Lemma halfCounter_unsigned k :
  (k < 2 ^ 23)%N → F32.to_unsigned (halfCounter k) = Some k.
Proof.
  intros Hk. unfold F32.to_unsigned, halfCounter.
  change (-1)%Z with (- Z.of_nat 1)%Z. rewrite floorZ_dyadic
    by (apply digits_le; change (2 ^ Z.of_nat 24)%Z with (Z.of_N (2 ^ 24)); lia).
  cbn [mbind option_bind]. change (2 ^ Z.of_nat 1)%Z with 2%Z.
  assert (Z.pos (N.succ_pos (2 * k)) / 2 = Z.of_N k)%Z as ->.
  { replace (Z.pos (N.succ_pos (2 * k))) with (Z.of_N k * 2 + 1)%Z by lia.
    rewrite Z.div_add_l by lia. change (1 / 2)%Z with 0%Z. lia. }
  rewrite decide_True by lia. f_equal. lia.
Qed.

(** ** The float loops *)

(** A float loop whose counter takes the values [c 0, c 1, ...] and passes
    the test exactly [n] times runs its body on [c 0, ..., c (n-1)], given
    fuel for [n] iterations and the last test. *)
Lemma float_for_from {St : Type} (c : N → float) (n : N) (bound : float)
    (body : float → St → option St) :
  (∀ i, (i < n)%N → F32.add (c i) F32.one = c (i + 1)%N) →
  (∀ i, (i < n)%N → F32.ltb (c i) bound = true) →
  F32.ltb (c n) bound = false →
  ∀ m k fuel s, N.of_nat (k + m) = n → m < fuel →
    float_for fuel (c (N.of_nat k)) bound body s
    = for_each body (c <$> (N.of_nat <$> seq k m)) s.
Proof.
  intros Hnext Hin Hout m.
  induction m as [|m IH]; intros k fuel s Hn Hfuel;
    (destruct fuel as [|fuel]; [lia|]); cbn [float_for].
  - replace (N.of_nat k) with n by lia. by rewrite Hout.
  - rewrite Hin by lia. cbn [seq fmap list_fmap for_each].
    destruct (body (c (N.of_nat k)) s) as [s1|]; cbn [mbind option_bind]; [|done].
    rewrite Hnext by lia.
    replace (N.of_nat k + 1)%N with (N.of_nat (S k)) by lia.
    apply IH; lia.
Qed.

Lemma float_for_upto {St : Type} (c : N → float) (n : N) (bound : float)
    (body : float → St → option St) fuel s :
  (∀ i, (i < n)%N → F32.add (c i) F32.one = c (i + 1)%N) →
  (∀ i, (i < n)%N → F32.ltb (c i) bound = true) →
  F32.ltb (c n) bound = false →
  N.to_nat n < fuel →
  float_for fuel (c 0%N) bound body s = for_each body (c <$> upto n) s.
Proof.
  intros Hnext Hin Hout Hfuel.
  apply (float_for_from c n bound body Hnext Hin Hout (N.to_nat n) 0); lia.
Qed.

(** A nest of two float loops, the outer counter from [0] and the inner one
    from [0.5], with as many iterations as [no] and [ni] say: it returns, and
    keeps what its bodies keep, if the body returns at every pair of
    counters. *)
Lemma counter_nest_total {St : Type} (P : St → Prop) (gas : nat) (no ni : N)
    (body : float → float → St → option St) s :
  (no < 2 ^ 23)%N → (ni < 2 ^ 23)%N →
  N.to_nat no < gas → N.to_nat ni < gas →
  (∀ i j t, (i < no)%N → (j < ni)%N → P t →
     ∃ t', body (F32.of_N i) (halfCounter j) t = Some t' ∧ P t') →
  P s →
  ∃ s', float_for gas F32.zero (F32.of_N no)
          (λ a, float_for gas F32.half (F32.of_N ni) (λ b, body a b)) s
        = Some s' ∧ P s'.
Proof.
  intros Hno Hni Hgo Hgi Hbody HP.
  change F32.zero with (F32.of_N 0).
  rewrite (float_for_upto F32.of_N no); [| | | |done].
  - apply for_each_total; [|done].
    intros a t (i & -> & Hi%elem_of_upto)%list_elem_of_fmap HPt.
    rewrite <- halfCounter_zero.
    rewrite (float_for_upto halfCounter ni); [| | | |done].
    + apply for_each_total; [|done].
      intros b u (j & -> & Hj%elem_of_upto)%list_elem_of_fmap HPu.
      by apply Hbody.
    + intros j Hj. apply halfCounter_next. lia.
    + intros j Hj. rewrite halfCounter_ltb by lia. by apply N.ltb_lt.
    + rewrite halfCounter_ltb by lia. apply N.ltb_irrefl.
  - intros i Hi. apply wholeCounter_next. lia.
  - intros i Hi. rewrite wholeCounter_ltb by lia. by apply N.ltb_lt.
  - rewrite wholeCounter_ltb by lia. apply N.ltb_irrefl.
Qed.

Section Returns.

Context {grid_impl : GridImpl} {seed_field : SeedField}.

Lemma sized_shape g g' : shape g' = shape g → sized g → sized g'.
Proof.
  intros Hs (Hwf & Hc & Hr & Hw & Hh).
  pose proof (wf_grid_shape _ _ Hs Hwf) as Hwf'.
  unfold shape in Hs. injection Hs as Ew Eh Ec Er _.
  unfold sized. by rewrite Ew, Eh, Ec, Er.
Qed.

Lemma advectFace_total d dt i j g :
  wf_grid g → (i < getColCount g)%N → (j < getRowCount g)%N →
  ∀ x y, F32.to_unsigned x = Some i → F32.to_unsigned y = Some j →
    ∃ g', advectFace d dt x y g = Some g' ∧ shape g' = shape g.
Proof.
  intros Hwf Hi Hj x y Hx Hy. unfold advectFace.
  rewrite Hx, Hy. cbn [mbind option_bind]. by apply modifyAt_total.
Qed.

(** On a sized grid [advectVelocity] returns, with fuel for the longer of
    its float loops. *)
Lemma advectVelocity_total gas dt g :
  sized g →
  N.to_nat (getColCount g) < gas → N.to_nat (getRowCount g) < gas →
  ∃ g', advectVelocity gas dt g = Some g' ∧ shape g' = shape g.
Proof.
  intros Hsized Hgc Hgr. pose proof Hsized as (Hwf & Hc & Hr & Hw & Hh).
  unfold advectVelocity. rewrite Hw, Hh.
  destruct (counter_nest_total (λ h, shape h = shape g) gas
              (getColCount g) (getRowCount g)
              (λ x y, advectFace X dt x y) g) as (g1 & H1 & Hs1);
    [lia|lia|done|done| |done|cbv beta in H1; rewrite H1].
  { intros i j h Hi Hj Hs.
    destruct (shape_counts _ _ Hs) as [Ec Er].
    destruct (advectFace_total X dt i j h) with (x := F32.of_N i) (y := halfCounter j)
      as (h' & Hrun & Hs'); [by eapply wf_grid_shape|lia|lia| | |].
    - apply wholeCounter_unsigned. lia.
    - apply halfCounter_unsigned. lia.
    - exists h'. split; [done|congruence]. }
  cbn [mbind option_bind].
  destruct (sized_shape _ _ Hs1 Hsized) as (_ & _ & _ & Hw1 & Hh1).
  destruct (shape_counts _ _ Hs1) as [Ec1 Er1].
  rewrite Hw1, Hh1, Ec1, Er1.
  destruct (counter_nest_total (λ h, shape h = shape g) gas
              (getRowCount g) (getColCount g)
              (λ y x, advectFace Y dt x y) g1) as (g2 & H2 & Hs2);
    [lia|lia|done|done| |done|cbv beta in H2; rewrite H2].
  { intros j i h Hj Hi Hs.
    destruct (shape_counts _ _ Hs) as [Ec Er].
    destruct (advectFace_total Y dt i j h) with (x := halfCounter i) (y := F32.of_N j)
      as (h' & Hrun & Hs'); [by eapply wf_grid_shape|lia|lia| | |].
    - apply halfCounter_unsigned. lia.
    - apply wholeCounter_unsigned. lia.
    - exists h'. split; [done|congruence]. }
  cbn [mbind option_bind].
  rewrite modifyIndex_sweep_all by (by eapply wf_grid_shape).
  eexists. split; [done|]. rewrite <- Hs2. unfold shape. simpl.
  by rewrite length_fmap.
Qed.

Lemma applyGlobalVelocity_total velocity g :
  wf_grid g →
  ∃ g', applyGlobalVelocity velocity g = Some g' ∧ shape g' = shape g.
Proof.
  intros Hwf. unfold applyGlobalVelocity.
  rewrite (for_each_ext _ (λ i, modifyIndex (pushCell velocity) (N.to_nat i)))
    by (intros i h; exact (modifyIndex_compose (add_vel X (vec_x velocity))
                             (add_vel Y (vec_y velocity)) (N.to_nat i) h)).
  rewrite modifyIndex_sweep_all by done.
  eexists. split; [done|]. unfold shape. simpl. by rewrite length_fmap.
Qed.

(** On a sized grid a sub-step returns, whatever the step, the cells and
    the particles, and leaves a sized grid. *)
Lemma advanceTimeStep_total gas dt s :
  sized (_grid s) →
  N.to_nat (getColCount (_grid s)) < gas →
  N.to_nat (getRowCount (_grid s)) < gas →
  ∃ s', advanceTimeStep gas dt s = Some s' ∧ sized (_grid s').
Proof.
  intros Hsized Hgc Hgr. pose proof Hsized as (Hwf & Hc & Hr & _).
  unfold advanceTimeStep.
  destruct (advectVelocity_total gas dt (_grid s)) as (g1 & -> & Hs1);
    [done..|]. cbn [mbind option_bind].
  pose proof (wf_grid_shape _ _ Hs1 Hwf) as Hwf1.
  destruct (applyGlobalVelocity_total (Vector2_scale gravity dt) g1)
    as (g2 & -> & Hs2); [done|]. cbn [mbind option_bind].
  pose proof (wf_grid_shape _ _ Hs2 Hwf1) as Hwf2.
  destruct (pressureSolve_total dt g2 Hwf2) as [g3 H3]. rewrite H3.
  cbn [mbind option_bind].
  assert (shape g3 = shape g2) as Hs3
    by (by apply (pressureSolve_keeps pressure) in H3 as [? _]; [|intros []]).
  pose proof (wf_grid_shape _ _ Hs3 Hwf2) as Hwf3.
  assert (shape g3 = shape (_grid s)) as Hs03 by congruence.
  destruct (shape_counts _ _ Hs03) as [Ec Er].
  destruct (boundaryCollide_total g3) as [g4 H4]; [done|lia|lia|].
  rewrite H4. cbn [mbind option_bind].
  assert (shape g4 = shape g3) as Hs4
    by (by apply (boundaryCollide_keeps pressure) in H4 as [? _];
          [|intros []|]).
  eexists. split; [done|]. simpl.
  apply (sized_shape (_grid s)); [congruence|done].
Qed.

(** X20.  On a well-formed grid with at least one and fewer than [2^23]
    columns and rows, whose width and height are its column and row counts,
    a sub-step returns: for every step length, every cell content and every
    list of particles, given fuel for one more iteration of the float loops
    than the grid has columns and rows.  It leaves such a grid again, so
    sub-steps can follow one another. *)
Theorem advanceTimeStep_returns gas dt s :
  sized (_grid s) →
  N.to_nat (getColCount (_grid s)) < gas →
  N.to_nat (getRowCount (_grid s)) < gas →
  ∃ s', advanceTimeStep gas dt s = Some s' ∧
    sized (_grid s') ∧ shape (_grid s') = shape (_grid s) ∧
    length (_particles s') = length (_particles s).
Proof.
  intros Hsized Hgc Hgr.
  destruct (advanceTimeStep_total gas dt s) as (s' & Hrun & Hsized');
    [done..|].
  exists s'. split; [done|]. split; [done|].
  by apply advanceTimeStep_solver in Hrun as (_ & _ & ? & ?).
Qed.

(** X21.  Whenever the CFL quotient of the grid exceeds the frame time
    (the largest speed is below 60 cells a second), [advanceFrame] on a
    sized grid with no frame ready terminates: it runs exactly one sub-step,
    of the whole frame time, and sets the flag. *)
Theorem advanceFrame_one_substep fuel gas s :
  _frameReady s = false →
  F32.gtb (F32.div CFLCoefficient (magnitude (getMaxVelocity (_grid s))))
          frameTime = true →
  sized (_grid s) →
  N.to_nat (getColCount (_grid s)) < gas →
  N.to_nat (getRowCount (_grid s)) < gas →
  ∃ s1, advanceTimeStep gas frameTime s = Some s1 ∧
    advanceFrame (S (S fuel)) gas s = Some (set_frameReady true s1).
Proof.
  intros Hready Hcfl Hsized Hgc Hgr.
  destruct (advanceTimeStep_total gas frameTime s) as (s1 & Hstep & _);
    [done..|].
  exists s1. split; [done|]. unfold advanceFrame.
  by rewrite (advanceFrame_single_substep fuel gas s s1 Hready Hcfl Hstep).
Qed.


(** ** A frame that never ends *)




End Returns.

(** ** Runs of the frame loop *)

Section FrameRuns.

#[local] Existing Instances SpecGrid.impl SpecGrid.seed.


Lemma stuck_grid_sized : sized stuck_grid.
Proof.
  split; [split; reflexivity|]. repeat split; reflexivity.
Defined.

Lemma breeze_grid_sized : sized breeze_grid.
Proof.
  split; [split; reflexivity|]. repeat split; reflexivity.
Defined.




Lemma advanceTimeStep_returns_witness :
  ∃ s', advanceTimeStep 6 frameTime stuck_solver = Some s' ∧
    sized (_grid s') ∧ shape (_grid s') = shape (_grid stuck_solver) ∧
    length (_particles s') = length (_particles stuck_solver).
Proof.
  apply (advanceTimeStep_returns 6 frameTime stuck_solver);
    [exact stuck_grid_sized|vm_compute; lia|vm_compute; lia].
Defined.

Lemma advanceFrame_one_substep_witness :
  ∃ s1, advanceTimeStep 6 frameTime breeze_solver = Some s1 ∧
    advanceFrame 2 6 breeze_solver = Some (set_frameReady true s1).
Proof.
  apply (advanceFrame_one_substep 0 6 breeze_solver);
    [reflexivity|vm_compute; reflexivity|exact breeze_grid_sized
    |vm_compute; lia|vm_compute; lia].
Defined.

Lemma draw_once_witness :
  draw (set_frameReady true breeze_solver) [] =
    (breeze_solver, [mkDrawCall breeze_grid (_particles breeze_solver)]) ∧
  draw breeze_solver [] = (breeze_solver, []).
Proof.
  split.
  - apply (proj1 (draw_once (set_frameReady true breeze_solver) [])).
    reflexivity.
  - apply (proj1 (proj2 (draw_once breeze_solver []))). reflexivity.
Defined.

End FrameRuns.
